(** * hio hierarchical boxwork: boxes, piles, exen, builder verbs and acts

    A shallow embedding of [hio/base/hier/boxing.py] and
    [hio/base/hier/acting.py].

    Python objects live in a heap indexed by references; the identity test
    [a is b] of the source is equality of references.  A method that mutates
    an object takes the heap and returns the new heap.  A Python exception is
    the [Raise] outcome; a [while] loop of the source is run with fuel and
    [Diverge] is the outcome of a loop that did not finish within it. *)

From Stdlib Require Import QArith Qcanon.
From stdpp Require Import numbers gmap strings list fin_maps pretty.

Set Default Proof Using "Type".

(** ** Outcomes of a call *)

Inductive exn : Type :=
  | HierError (msg : string)   (* hioing.HierError, with the message's head *)
  | AttributeError             (* attribute access on a str *)
  | UnboundLocalError          (* read of a local before its assignment *)
  | KeyError
  | IndexError
  | NoSuchObject.              (* a reference outside the heap: no Python
                                  counterpart, heaps are closed under links *)

Inductive outcome (A : Type) : Type :=
  | Ok (a : A)
  | Raise (e : exn)
  | Diverge.

Arguments Ok {A} a.
Arguments Raise {A} e.
Arguments Diverge {A}.

Definition obind {A B} (k : A → outcome B) (m : outcome A) : outcome B :=
  match m with
  | Ok a => k a
  | Raise e => Raise e
  | Diverge => Diverge
  end.

#[global] Instance outcome_bind : MBind outcome := @obind.
#[global] Instance outcome_ret : MRet outcome := @Ok.

(** An operator applied to operands that do not support it raises
    [TypeError]: [None + str], [str + int]. *)
Inductive typed (A : Type) : Type :=
  | Typed (a : A)
  | TypeError.

Arguments Typed {A} a.
Arguments TypeError {A}.

(** ** Boxes *)

Module Boxing.

(** Object identity. *)
Definition ref := nat.

(** [Box.over] is [None], a box, or (before [Boxer.resolve]) a box name. *)
Inductive over_t : Type :=
  | ONone
  | OBox (r : ref)
  | OStr (s : string).

(** Python truthiness of an [over] value: a box is truthy ([Box] defines
    neither [__bool__] nor [__len__]), a str is truthy unless empty. *)
Definition truthy (o : over_t) : bool :=
  match o with
  | ONone => false
  | OBox _ => true
  | OStr s => negb (bool_decide (s = ""))
  end.

(** [Tract.dest]: a box, or a name still to be resolved. *)
Inductive dest_t : Type :=
  | DNone
  | DBox (r : ref)
  | DStr (s : string).

Record Tract : Type := mkTract { dest : dest_t; need : option string }.

(** An act as the per-context lists hold it: its name and its nabe. *)
Record ActRef : Type := mkActRef { act_name : string; act_nabe : string }.

Record Box : Type := mkBox {
  name : string;
  _pile : option (list ref);   (* None: not yet traced *)
  _spot : option nat;
  _trail : option string;
  over : over_t;
  unders : list ref;           (* zeroth entry is the primary under *)
  preacts : list ActRef;
  remacts : list ActRef;
  renacts : list ActRef;
  emacts : list ActRef;
  enacts : list ActRef;
  reacts : list ActRef;
  lacts : list ActRef;
  tracts : list Tract;
  exacts : list ActRef;
  rexacts : list ActRef;
  _next : option ref
}.

Abbreviation heap := (gmap ref Box).

(** The identifier pattern [Renam] of [hio.help] is not part of these
    sources.  Modelled from the spec: name segments must match
    [^[A-Za-z_][A-Za-z0-9_]*$]. *)
Definition is_alpha_ (c : Ascii.ascii) : bool :=
  let n := Ascii.nat_of_ascii c in
  ((65 <=? n) && (n <=? 90) || (97 <=? n) && (n <=? 122) || (n =? 95))%nat.

Definition is_alnum_ (c : Ascii.ascii) : bool :=
  let n := Ascii.nat_of_ascii c in
  is_alpha_ c || ((48 <=? n) && (n <=? 57))%nat.

Fixpoint all_alnum_ (s : string) : bool :=
  match s with
  | EmptyString => true
  | String c s' => is_alnum_ c && all_alnum_ s'
  end.

Definition Renam_match (s : string) : bool :=
  match s with
  | EmptyString => false
  | String c s' => is_alpha_ c && all_alnum_ s'
  end.

(** [Box.__init__]: the name setter validates, the caches start empty, the
    act lists start empty, [unders] starts empty whatever [over] is. *)
Definition Box_init (nm : string) (ov : over_t) : outcome Box :=
  if Renam_match nm then
    Ok {| name := nm; _pile := None; _spot := None; _trail := None;
          over := ov; unders := [];
          preacts := []; remacts := []; renacts := []; emacts := [];
          enacts := []; reacts := []; lacts := []; tracts := [];
          exacts := []; rexacts := []; _next := None |}
  else Raise (HierError "Invalid name").

Definition deref (h : heap) (r : ref) : outcome Box :=
  match h !! r with
  | Some b => Ok b
  | None => Raise NoSuchObject
  end.

Definition with_trace (b : Box) (p : list ref) (s : nat) (t : string) : Box :=
  {| name := name b; _pile := Some p; _spot := Some s; _trail := Some t;
     over := over b; unders := unders b;
     preacts := preacts b; remacts := remacts b; renacts := renacts b;
     emacts := emacts b; enacts := enacts b; reacts := reacts b;
     lacts := lacts b; tracts := tracts b; exacts := exacts b;
     rexacts := rexacts b; _next := _next b |}.

Definition with_over (b : Box) (o : over_t) : Box :=
  {| name := name b; _pile := _pile b; _spot := _spot b; _trail := _trail b;
     over := o; unders := unders b;
     preacts := preacts b; remacts := remacts b; renacts := renacts b;
     emacts := emacts b; enacts := enacts b; reacts := reacts b;
     lacts := lacts b; tracts := tracts b; exacts := exacts b;
     rexacts := rexacts b; _next := _next b |}.

Definition with_unders (b : Box) (us : list ref) : Box :=
  {| name := name b; _pile := _pile b; _spot := _spot b; _trail := _trail b;
     over := over b; unders := us;
     preacts := preacts b; remacts := remacts b; renacts := renacts b;
     emacts := emacts b; enacts := enacts b; reacts := reacts b;
     lacts := lacts b; tracts := tracts b; exacts := exacts b;
     rexacts := rexacts b; _next := _next b |}.

Definition with_tracts (b : Box) (ts : list Tract) : Box :=
  {| name := name b; _pile := _pile b; _spot := _spot b; _trail := _trail b;
     over := over b; unders := unders b;
     preacts := preacts b; remacts := remacts b; renacts := renacts b;
     emacts := emacts b; enacts := enacts b; reacts := reacts b;
     lacts := lacts b; tracts := ts; exacts := exacts b;
     rexacts := rexacts b; _next := _next b |}.

Definition with_next (b : Box) (n : option ref) : Box :=
  {| name := name b; _pile := _pile b; _spot := _spot b; _trail := _trail b;
     over := over b; unders := unders b;
     preacts := preacts b; remacts := remacts b; renacts := renacts b;
     emacts := emacts b; enacts := enacts b; reacts := reacts b;
     lacts := lacts b; tracts := tracts b; exacts := exacts b;
     rexacts := rexacts b; _next := n |}.

(** Assignments to the links of a box: [box.over = o], and any in-place
    change of the list [box.unders] ([append], [remove], ...), given by the
    list it leaves. *)
Definition set_over (h : heap) (r : ref) (o : over_t) : outcome heap :=
  b ← deref h r;
  Ok (<[r := with_over b o]> h).

Definition set_unders (h : heap) (r : ref) (us : list ref) : outcome heap :=
  b ← deref h r;
  Ok (<[r := with_unders b us]> h).

(** [box.unders.append(u)]. *)
Definition unders_append (h : heap) (r u : ref) : outcome heap :=
  b ← deref h r;
  set_unders h r (unders b ++ [u]).

(** *** [Box._trace]

    [while over: pile.insert(0, over); over = over.over].  A non-empty str
    is inserted and then fails on [.over]. *)
Fixpoint trace_up (fuel : nat) (h : heap) (o : over_t) (pile : list ref)
  : outcome (list ref) :=
  match o with
  | ONone => Ok pile
  | OStr s => if truthy (OStr s) then Raise AttributeError else Ok pile
  | OBox r =>
      match fuel with
      | 0 => Diverge
      | S fuel' =>
          b ← deref h r;
          trace_up fuel' h (over b) (r :: pile)
      end
  end.

(** [under = self.unders[0] if self.unders else None]. *)
Definition primary (b : Box) : option ref := head (unders b).

(** [while under: pile.append(under); under = primary under]. *)
Fixpoint trace_down (fuel : nat) (h : heap) (u : option ref) (pile : list ref)
  : outcome (list ref) :=
  match u with
  | None => Ok pile
  | Some r =>
      match fuel with
      | 0 => Diverge
      | S fuel' =>
          b ← deref h r;
          trace_down fuel' h (primary b) (pile ++ [r])
      end
  end.

Fixpoint names (h : heap) (rs : list ref) : outcome (list string) :=
  match rs with
  | [] => Ok []
  | r :: rs' =>
      b ← deref h r;
      ns ← names h rs';
      Ok (name b :: ns)
  end.

Definition _trace (fuel : nat) (h : heap) (self : ref) : outcome heap :=
  b ← deref h self;
  pile ← trace_up fuel h (over b) [];
  let pile := pile ++ [self] in
  let spot := length pile - 1 in
  pile ← trace_down fuel h (primary b) pile;
  up ← names h (take spot pile);
  dn ← names h (drop (S spot) pile);
  let trail := String.concat "<" up +:+ "<" +:+ name b +:+ ">"
               +:+ String.concat ">" dn in
  Ok (<[self := with_trace b pile spot trail]> h).

(** The [pile], [spot] and [trail] properties: trace when the cache is
    [None], then return the cache. *)
Definition pile (fuel : nat) (h : heap) (self : ref)
  : outcome (heap * list ref) :=
  b ← deref h self;
  match _pile b with
  | Some p => Ok (h, p)
  | None =>
      h' ← _trace fuel h self;
      b' ← deref h' self;
      match _pile b' with
      | Some p => Ok (h', p)
      | None => Raise NoSuchObject
      end
  end.

Definition spot (fuel : nat) (h : heap) (self : ref)
  : outcome (heap * nat) :=
  b ← deref h self;
  match _spot b with
  | Some s => Ok (h, s)
  | None =>
      h' ← _trace fuel h self;
      b' ← deref h' self;
      match _spot b' with
      | Some s => Ok (h', s)
      | None => Raise NoSuchObject
      end
  end.

Definition trail (fuel : nat) (h : heap) (self : ref)
  : outcome (heap * string) :=
  b ← deref h self;
  match _trail b with
  | Some t => Ok (h, t)
  | None =>
      h' ← _trace fuel h self;
      b' ← deref h' self;
      match _trail b' with
      | Some t => Ok (h', t)
      | None => Raise NoSuchObject
      end
  end.

(** *** [Boxer.exen]

    The result [(exits, enters, rexits, renters)]; [None] is the value of a
    call that falls through the [for] loop without reaching [return]. *)
Definition quadruple : Type := list ref * list ref * list ref * list ref.

(** The test of the loop body at index [i]. *)
Definition uncommon (far : ref) (nears fars : list ref) (i : nat)
  : outcome bool :=
  match nears !! i, fars !! i with
  | Some n, Some f => Ok (bool_decide (far = n) || negb (bool_decide (f = n)))
  | _, _ => Raise IndexError
  end.

(** [for i in range(l): if ...: return (...)], over the indices left. *)
Fixpoint exen_loop (far : ref) (nears fars : list ref) (idxs : list nat)
  : outcome (option quadruple) :=
  match idxs with
  | [] => Ok None
  | i :: idxs' =>
      c ← uncommon far nears fars i;
      if c : bool then
        Ok (Some (reverse (drop i nears), drop i fars,
                  reverse (take i nears), take i fars))
      else exen_loop far nears fars idxs'
  end.

Definition exen_piles (far : ref) (nears fars : list ref)
  : outcome (option quadruple) :=
  let l := length nears `min` length fars in
  exen_loop far nears fars (seq 0 l).

Definition exen (fuel : nat) (h : heap) (near far : ref)
  : outcome (heap * option quadruple) :=
  '(h1, nears) ← pile fuel h near;
  '(h2, fars) ← pile fuel h1 far;
  q ← exen_piles far nears fars;
  Ok (h2, q).

(** ** Boxer *)

(** A Python [dict] with str keys, in insertion order. *)
Definition dict (V : Type) : Type := list (string * V).

Fixpoint dict_get {V} (d : dict V) (k : string) : option V :=
  match d with
  | [] => None
  | (k', v) :: d' => if bool_decide (k' = k) then Some v else dict_get d' k
  end.

Definition dict_has {V} (d : dict V) (k : string) : bool :=
  match dict_get d k with Some _ => true | None => false end.

(** [d[k] = v]: replace in place when the key is there, else append. *)
Fixpoint dict_set {V} (d : dict V) (k : string) (v : V) : dict V :=
  match d with
  | [] => [(k, v)]
  | (k', v') :: d' =>
      if bool_decide (k' = k) then (k', v) :: d'
      else (k', v') :: dict_set d' k v
  end.

Record Boxer : Type := mkBoxer {
  boxer_name : string;
  first : option ref;
  boxes : dict ref;
  active_pile : list ref;     (* Boxer.pile *)
  box : option ref
}.

Definition with_boxes (self : Boxer) (bs : dict ref) : Boxer :=
  {| boxer_name := boxer_name self; first := first self; boxes := bs;
     active_pile := active_pile self; box := box self |}.

(** [Boxer.__init__]. *)
Definition Boxer_init (nm : string) (fst : option ref) : outcome Boxer :=
  if Renam_match nm then
    Ok {| boxer_name := nm; first := fst; boxes := [];
          active_pile := []; box := None |}
  else Raise (HierError "Invalid name").

(** The fields of [WorkDom] that the builder verbs use ([hiering.py] is not
    part of these sources; the fields are the ones the verbs read and
    write). *)
Record WorkDom : Type := mkWorkDom {
  wbox : option ref;     (* .box *)
  wover : option ref;    (* .over *)
  bxpre : string;
  bxidx : nat
}.

(** *** [Boxer.resolve]

    [resolve_tract] is the body of [for tract in box.tracts].  For ['next']
    the [HierError] is built but not raised, and [dest = box._next]. *)
Definition resolve_tract (bs : dict ref) (nxt : option ref) (t : Tract)
  : outcome Tract :=
  match dest t with
  | DStr s =>
      if bool_decide (s = "next") then
        Ok {| dest := match nxt with Some r => DBox r | None => DNone end;
              need := need t |}
      else
        match dict_get bs s with
        | Some r => Ok {| dest := DBox r; need := need t |}
        | None => Raise (HierError "Unresolvable dest box")
        end
  | _ => Ok t
  end.

Fixpoint resolve_tracts (bs : dict ref) (nxt : option ref) (ts : list Tract)
  : outcome (list Tract) :=
  match ts with
  | [] => Ok []
  | t :: ts' =>
      t' ← resolve_tract bs nxt t;
      ts'' ← resolve_tracts bs nxt ts';
      Ok (t' :: ts'')
  end.

(** The statement [over = self.boxes[over]] inside [try].  [over] is a local
    of [resolve] (it is assigned in the body), so the subscript reads the
    local: while it is unbound the read raises [UnboundLocalError], which
    [except KeyError] does not catch.  Were it bound (to a box), the lookup
    of a box among str keys would raise [KeyError], turned into
    [HierError]. *)
Definition resolve_over (bs : dict ref) (over_local : option ref)
  : outcome ref :=
  match over_local with
  | None => Raise UnboundLocalError
  | Some _ => Raise (HierError "Unresolvable over box name")
  end.

(** [for name, box in self.boxes.items()], with the local [over] threaded
    through the iterations. *)
Fixpoint resolve_loop (bs : dict ref) (items : list (string * ref))
    (over_local : option ref) (h : heap) : outcome heap :=
  match items with
  | [] => Ok h
  | (nm, r) :: items' =>
      b ← deref h r;
      '(over_local, h) ←
        match over b with
        | OStr _ =>
            o ← resolve_over bs over_local;
            let h := <[r := with_over b (OBox o)]> h in
            bo ← deref h o;
            Ok (Some o, <[o := with_unders bo (unders bo ++ [r])]> h)
        | _ => Ok (over_local, h)
        end;
      b ← deref h r;
      ts ← resolve_tracts bs (_next b) (tracts b);
      resolve_loop bs items' over_local (<[r := with_tracts b ts]> h)
  end.

Definition resolve (self : Boxer) (h : heap) : outcome heap :=
  resolve_loop (boxes self) (boxes self) None h.

(** *** [Boxer.bx] *)

(** [name = pre + str(idx); idx += 1], repeated while the name is taken. *)
Fixpoint default_name {V} (fuel : nat) (d : dict V) (pre : string) (idx : nat)
  : outcome (string * nat) :=
  let nm := pre +:+ pretty idx in
  let idx := S idx in
  if dict_has d nm then
    match fuel with
    | 0 => Diverge
    | S fuel' => default_name fuel' d pre idx
    end
  else Ok (nm, idx).

Definition bx (fuel : nat) (self : Boxer) (h : heap) (m : WorkDom)
    (nm : option string) (ov : over_t)
  : outcome (Boxer * heap * WorkDom * ref) :=
  '(nm, idx) ←
    match nm with
    | None => default_name fuel (boxes self) (bxpre m) (bxidx m)
    | Some s =>
        if bool_decide (s = "") then Raise (HierError "Missing name.")
        else Ok (s, bxidx m)
    end;
  if dict_has (boxes self) nm then Raise (HierError "Non-unique box")
  else
    '(ov, bs) ←
      match ov with
      | ONone => Ok (None, boxes self)
      | OStr s =>
          if bool_decide (s = "") then Ok (wover m, boxes self)
          else
            match dict_get (boxes self) s with
            | Some r => Ok (Some r, boxes self)
            | None => Raise (HierError "Under box defined before its over")
            end
      | OBox r =>
          b ← deref h r;
          if dict_has (boxes self) (name b) then Ok (Some r, boxes self)
          else Ok (Some r, dict_set (boxes self) (name b) r)
      end;
    b ← Box_init nm (match ov with Some r => OBox r | None => ONone end);
    let new := fresh (dom h) in
    let h := <[new := b]> h in
    let bs := dict_set bs nm new in
    h ← match ov with
        | Some o =>
            bo ← deref h o;
            Ok (<[o := with_unders bo (unders bo ++ [new])]> h)
        | None => Ok h
        end;
    h ← match wbox m with
        | Some p =>
            bp ← deref h p;
            Ok (<[p := with_next bp (Some new)]> h)
        | None => Ok h
        end;
    Ok (with_boxes self bs, h,
        {| wbox := Some new; wover := ov; bxpre := bxpre m; bxidx := idx |},
        new).

(** *** [Boxer.go]: the tract is appended to the current box's [tracts].
    The dest is worked out first; [m.box] is read where the source reads
    it, and fails with [AttributeError] when there is no current box. *)
Definition go (self : Boxer) (h : heap) (m : WorkDom)
    (dst : dest_t) (expr : option string)
  : outcome (heap * Tract) :=
  let current :=
    cur ← match wbox m with Some r => Ok r | None => Raise AttributeError end;
    b ← deref h cur;
    Ok (cur, b) in
  let to_next :=
    '(_, b) ← current;
    Ok (match _next b with Some r => DBox r | None => DStr "next" end) in
  d ← match dst with
      | DNone => to_next
      | DBox r => Ok (DBox r)
      | DStr s =>
          if bool_decide (s = "") || bool_decide (s = "next")
             || bool_decide (s = "Next") || bool_decide (s = "NEXT")
          then to_next
          else if Renam_match s then
            match dict_get (boxes self) s with
            | Some r => Ok (DBox r)
            | None => Ok (DStr s)
            end
          else Raise (HierError "Invalid dest")
      end;
  let t := {| dest := d; need := expr |} in
  '(cur, b) ← current;
  Ok (<[cur := with_tracts b (tracts b ++ [t])]> h, t).

(** *** [Boxer.do]: a name for the deed is worked out and returned. *)

(** [deed = 'act' + str(idx); idx += 1], repeated while the name is a key
    of [boxes]. *)
Definition do (fuel : nat) (self : Boxer) (h : heap) (m : WorkDom)
    (deed : option string)
  : outcome (heap * WorkDom * string) :=
  match deed with
  | None =>
      '(d, idx) ← default_name fuel (boxes self) "act" (bxidx m);
      Ok (h, {| wbox := wbox m; wover := wover m; bxpre := bxpre m;
                bxidx := idx |}, d)
  | Some s =>
      if bool_decide (s = "") then Raise (HierError "Missing deed.")
      else Ok (h, m, s)
  end.

(** *** Vocabulary for the statements about [exen] *)

(** The four slices returned when the scan stops at index [i]. *)
Definition split_at (nears fars : list ref) (i : nat) : quadruple :=
  (reverse (drop i nears), drop i fars, reverse (take i nears), take i fars).

(** [(far is nears[i]) or (fars[i] is not nears[i])] holds at [i]. *)
Definition uncommon_at (far : ref) (nears fars : list ref) (i : nat) : Prop :=
  ∃ n f, nears !! i = Some n ∧ fars !! i = Some f ∧ (far = n ∨ f ≠ n).

(** Both piles have index [i] and the test fails there. *)
Definition common_at (far : ref) (nears fars : list ref) (i : nat) : Prop :=
  ∃ n, nears !! i = Some n ∧ fars !! i = Some n ∧ far ≠ n.

(** [i] is the smallest index at which the test holds. *)
Definition first_uncommon (far : ref) (nears fars : list ref) (i : nat)
  : Prop :=
  uncommon_at far nears fars i ∧ ∀ j, j < i → common_at far nears fars j.

(** *** Vocabulary for the statements about piles *)

(** [r.over] and [r.unders[0]] in heap [h]. *)
Definition over_of (h : heap) (r : ref) : option over_t := over <$> h !! r.

Definition primary_of (h : heap) (r : ref) : option ref := h !! r ≫= primary.

(** [rs] is the chain of overs above a box whose [over] is [o], nearest
    first, up to a box whose [over] is falsy. *)
Fixpoint over_path (h : heap) (o : over_t) (rs : list ref) : Prop :=
  match rs with
  | [] => truthy o = false
  | r :: rs' => o = OBox r ∧ ∃ b, h !! r = Some b ∧ over_path h (over b) rs'
  end.

(** [rs] is the chain of primary unders below a box whose primary under
    is [u], nearest first, down to a box without unders. *)
Fixpoint under_path (h : heap) (u : option ref) (rs : list ref) : Prop :=
  match rs with
  | [] => u = None
  | r :: rs' => u = Some r ∧ ∃ b, h !! r = Some b ∧ under_path h (primary b) rs'
  end.

(** Every box of the pile but the top has the box before it as its over,
    and the top has none. *)
Definition over_linked (h : heap) (p : list ref) : Prop :=
  (∀ x, p !! 0 = Some x → ∃ o, over_of h x = Some o ∧ truthy o = false) ∧
  (∀ i x y, p !! i = Some x → p !! S i = Some y →
            over_of h y = Some (OBox x)).

(** The primary under of a box has that box as its over. *)
Definition unders_point_back (h : heap) : Prop :=
  ∀ x y, primary_of h x = Some y → over_of h y = Some (OBox x).

(** A box that has an over is listed in the unders of that over. *)
Definition listed_in_over (h : heap) : Prop :=
  ∀ y x, over_of h y = Some (OBox x) →
         ∃ bx, h !! x = Some bx ∧ y ∈ unders bx.

(** The links of a boxwork form trees: a box is among the unders of its
    over, and the primary under of a box has that box as its over. *)
Definition tree_links (h : heap) : Prop :=
  unders_point_back h ∧ listed_in_over h.

(** A state of the builder: the links form trees and the boxer and the
    works refer to boxes that exist. *)
Definition boxwork_ok (st : Boxer * heap * WorkDom) : Prop :=
  let '(self, h, m) := st in
  tree_links h ∧
  (∀ nm r, (nm, r) ∈ boxes self → is_Some (h !! r)) ∧
  (∀ r, wover m = Some r → is_Some (h !! r)) ∧
  (∀ r, wbox m = Some r → is_Some (h !! r)).

(** [p] is what tracing [self] gives with the links of [h]: the overs of
    [self] top down, [self], and its primary unders. *)
Definition is_trace (h : heap) (self : ref) (p : list ref) : Prop :=
  ∃ b ups downs,
    h !! self = Some b ∧
    over_path h (over b) ups ∧ under_path h (primary b) downs ∧
    p = reverse ups ++ [self] ++ downs.

(** Two heaps with the same links: every box has the same over and the
    same unders in both. *)
Definition same_links (h h' : heap) : Prop :=
  ∀ r, over <$> h !! r = over <$> h' !! r ∧
       unders <$> h !! r = unders <$> h' !! r.

(** The cached pile and spot of a box. *)
Definition cached_pile (h : heap) (r : ref) : option (list ref) :=
  h !! r ≫= _pile.

Definition cached_spot (h : heap) (r : ref) : option nat :=
  h !! r ≫= _spot.

(** *** [Boxer.on] *)

(** Python truthiness of an optional str: [None] and the empty str are
    falsy. *)
Definition str_truthy (s : option string) : bool :=
  match s with
  | Some s => negb (bool_decide (s = ""))
  | None => false
  end.

(** [Boxer.on]: the expression handed to [Need(expr=...)]; [None] is a Need
    made without expression.  The parameter [key] is there and is not
    used. *)
Definition on (cond key expr : option string) : typed (option string) :=
  let '(cond, _expr, expr) :=
    if str_truthy cond then (cond, None, expr)
    else if str_truthy expr then (cond, expr, None)
    else (Some "updated", None, expr) in
  let _expr :=
    if str_truthy _expr then _expr
    else if bool_decide (cond = Some "updated") then Some "True"
    else _expr in
  if str_truthy expr then
    match _expr, expr with
    | Some x, Some e => Typed (Some ("(" +:+ x +:+ ") and (" +:+ e +:+ ")"))
    | _, _ => TypeError
    end
  else Typed _expr.

(** *** [Boxer.make]

    The function [fun] handed to [make] is given by the calls of the verbs
    it makes, in order. *)
Inductive verb : Type :=
  | Vbx (nm : option string) (ov : over_t)
  | Vgo (dst : dest_t) (expr : option string)
  | Vdo (deed : option string).

Definition run_verb (fuel : nat) (st : Boxer * heap * WorkDom) (v : verb)
  : outcome (Boxer * heap * WorkDom) :=
  let '(self, h, m) := st in
  match v with
  | Vbx nm ov =>
      '(self, h, m, _) ← bx fuel self h m nm ov;
      Ok (self, h, m)
  | Vgo dst expr =>
      '(h, _) ← go self h m dst expr;
      Ok (self, h, m)
  | Vdo deed =>
      '(h, m, _) ← do fuel self h m deed;
      Ok (self, h, m)
  end.

Fixpoint run_verbs (fuel : nat) (vs : list verb) (st : Boxer * heap * WorkDom)
  : outcome (Boxer * heap * WorkDom) :=
  match vs with
  | [] => Ok st
  | v :: vs' =>
      st' ← run_verb fuel st v;
      run_verbs fuel vs' st'
  end.

(** [works = WorkDom(); fun(bx=bx, on=on, go=go, do=do); self.resolve();
    return works], with the fresh [WorkDom()] given as [works]. *)
Definition make (fuel : nat) (self : Boxer) (h : heap) (works : WorkDom)
    (script : list verb) : outcome (Boxer * heap * WorkDom) :=
  '(self, h, m) ← run_verbs fuel script (self, h, works);
  h ← resolve self h;
  Ok (self, h, m).

(** *** Vocabulary for the statements about the builder *)



(** No tract of the box still has a name as its dest. *)
Definition dests_resolved (b : Box) : Prop :=
  ∀ t, t ∈ tracts b → ∀ s, dest t ≠ DStr s.

(** No box has a name as its over. *)
Definition overs_resolved (h : heap) : Prop :=
  ∀ r b, h !! r = Some b → ∀ s, over b ≠ OStr s.

(** A state of the builder in which, besides, no over is a name. *)
Definition builder_ok (st : Boxer * heap * WorkDom) : Prop :=
  boxwork_ok st ∧ overs_resolved st.1.2.

(** *** Vocabulary for traces that do not return *)

(** [n] boxes above a box whose over is [o], an over is a name: a
    non-empty str. *)
Fixpoint name_above (h : heap) (o : over_t) (n : nat) : Prop :=
  match n with
  | 0 => ∃ s, o = OStr s ∧ s ≠ ""
  | S n' => ∃ r b, o = OBox r ∧ h !! r = Some b ∧ name_above h (over b) n'
  end.

(** The overs of the boxes of [S] are boxes of [S]: following overs from
    [S] never comes to an end. *)
Definition over_cycle (h : heap) (S : gset ref) : Prop :=
  ∀ r, r ∈ S → ∃ b r', h !! r = Some b ∧ over b = OBox r' ∧ r' ∈ S.

(** The same for primary unders. *)
Definition under_cycle (h : heap) (S : gset ref) : Prop :=
  ∀ r, r ∈ S → ∃ b r', h !! r = Some b ∧ primary b = Some r' ∧ r' ∈ S.

End Boxing.

(** ** Acts *)

Module Acting.

Export Boxing(dict, dict_get, dict_has, dict_set, dest_t, DNone, DBox, DStr).

(** [hiering.py] ([Nabe], [ActBase]) is not part of these sources.  The
    nabes are the attributes of [Nabe] that [acting.py] names; any str can
    be passed where a nabe is expected. *)
Definition nabe : Type := string.

Module Nabe.
Definition endo : nabe := "endo".
Definition godo : nabe := "godo".
Definition enmark : nabe := "enmark".
Definition redo : nabe := "redo".
Definition exdo : nabe := "exdo".
End Nabe.

(** The keyword arguments [**kwa] handed on to [ActBase.__init__]; [None]
    is a keyword that was not given. *)
Record kwargs : Type := mkKwargs {
  kw_name : option string;
  kw_iops : option (dict string);
  kw_nabe : option nabe
}.

(** [kwa.update(nabe=v)]. *)
Definition kwa_update_nabe (kwa : kwargs) (v : nabe) : kwargs :=
  {| kw_name := kw_name kwa; kw_iops := kw_iops kwa; kw_nabe := Some v |}.

(** What an [ActBase] instance carries: name, iops and nabe. *)
Record ActBase : Type := mkActBase {
  ab_name : string;
  iops : dict string;
  ab_nabe : nabe
}.

(** Modelled from the spec: [ActBase.__init__] is not part of these
    sources; every Act carries [name], [iops] (empty when not given) and
    [nabe] (default [endo]), and names match the identifier pattern. *)
Definition ActBase_init_spec (kwa : kwargs) : outcome ActBase :=
  let nm := default "act" (kw_name kwa) in
  if Boxing.Renam_match nm then
    Ok {| ab_name := nm;
          iops := default [] (kw_iops kwa);
          ab_nabe := default Nabe.endo (kw_nabe kwa) |}
  else Raise (HierError "Invalid name").

(** *** The mine *)

(** Modelled from the spec: [Bag] and [Mine] ([bagging.py], [hio.help]) are
    not part of these sources.  A bag has a [value] (initially [None]) and
    the tyme [_tyme] of its last write (unset until the first write); the
    mine maps keys to bags, and the key tuple of segments is the segments
    joined by ["_"], as the source's comment [_boxer_boxername_end] on the
    end key shows. *)
Inductive value (tyme : Type) : Type :=
  | VNone
  | VTyme (t : tyme)
  | VBool (b : bool)
  | VInt (z : Z)
  | VStr (s : string).

Arguments VNone {tyme}.
Arguments VTyme {tyme} t.
Arguments VBool {tyme} b.
Arguments VInt {tyme} z.
Arguments VStr {tyme} s.

#[global] Instance value_eq_dec {tyme} `{EqDecision tyme} :
  EqDecision (value tyme).
Proof. solve_decision. Defined.

Record Bag (tyme : Type) : Type := mkBag {
  bag_value : value tyme;       (* .value *)
  _tyme : option tyme
}.

Arguments mkBag {tyme}.
Arguments bag_value {tyme}.
Arguments _tyme {tyme}.

Definition tokey (keys : list string) : string := String.concat "_" keys.

Section Marks.

Context {tyme : Type} `{EqDecision tyme}.

(** The base initialiser, for which only its result matters here. *)
Variable ActBase_init : kwargs → outcome ActBase.

Abbreviation Mine := (gmap string (Bag tyme)).

(** [Bag()]. *)
Definition Bag_new : Bag tyme := {| bag_value := VNone; _tyme := None |}.

(** A tyme read off a bag, as a Python value. *)
Definition of_tyme (t : option tyme) : value tyme :=
  match t with
  | Some t => VTyme t
  | None => VNone
  end.

(** [self.mine[k]]. *)
Definition mine_get (m : Mine) (k : string) : outcome (Bag tyme) :=
  match m !! k with
  | Some b => Ok b
  | None => Raise KeyError
  end.

(** [self.mine[k].value = v] at tyme [now]: the write stamps the bag. *)
Definition mine_set_value (now : option tyme) (m : Mine) (k : string)
    (v : value tyme) : outcome Mine :=
  b ← mine_get m k;
  Ok (<[k := {| bag_value := v; _tyme := now |}]> m).

(** [self.iops[k]]. *)
Definition iop (a : ActBase) (k : string) : outcome string :=
  match dict_get (iops a) k with
  | Some v => Ok v
  | None => Raise KeyError
  end.

(** [try: ... = self.iops[k] except KeyError: raise HierError(...)]. *)
Definition iop_required (a : ActBase) (k : string) : outcome string :=
  match dict_get (iops a) k with
  | Some v => Ok v
  | None => Raise (HierError "Missing iops")
  end.

(** *** [Goact] *)

Record Goact : Type := mkGoact {
  go_base : ActBase;
  dest : dest_t;
  need : option string          (* None: the default Need(), always true *)
}.

(** [Goact.__init__]: the nabe keyword is overridden by [godo] before the
    base initialiser runs; the check comes after. *)
Definition Goact_init (dst : dest_t) (nd : option string) (kwa : kwargs)
  : outcome Goact :=
  let kwa := kwa_update_nabe kwa Nabe.godo in
  a ← ActBase_init kwa;
  let dst := match dst with DNone => DStr "next" | d => d end in
  if bool_decide (ab_nabe a ≠ Nabe.godo)
  then Raise (HierError "Invalid nabe")
  else Ok {| go_base := a; dest := dst; need := nd |}.

(** *** [Mark] and [UpdateMark] *)

(** [Mark.__init__(nabe=Nabe.enmark, **kwa)]. *)
Definition Mark_init (m : Mine) (kwa : kwargs) : outcome ActBase :=
  let kwa := kwa_update_nabe kwa (default Nabe.enmark (kw_nabe kwa)) in
  a ← ActBase_init kwa;
  _ ← iop_required a "_boxer";
  _ ← iop_required a "_box";
  key ← iop_required a "_key";
  match m !! key with
  | Some _ => Ok a
  | None => Raise (HierError "Missing bag")
  end.

(** The key of the update mark of [key] in box [box] of boxer [boxer]. *)
Definition update_keys (boxer box key : string) : string :=
  tokey [""; "boxer"; boxer; "box"; box; "update"; key].

(** [UpdateMark.__init__]: the mark's bag is created when absent. *)
Definition UpdateMark_init (m : Mine) (kwa : kwargs)
  : outcome (ActBase * Mine) :=
  a ← Mark_init m kwa;
  boxer ← iop a "_boxer";
  box ← iop a "_box";
  key ← iop a "_key";
  let keys := update_keys boxer box key in
  match m !! keys with
  | Some _ => Ok (a, m)
  | None => Ok (a, <[keys := Bag_new]> m)
  end.

(** [UpdateMark.act]: [self.mine[keys].value = self.mine[key]._tyme]. *)
Definition UpdateMark_act (now : option tyme) (a : ActBase) (m : Mine)
  : outcome Mine :=
  boxer ← iop a "_boxer";
  box ← iop a "_box";
  key ← iop a "_key";
  let keys := update_keys boxer box key in
  bag ← mine_get m key;
  mine_set_value now m keys (of_tyme (_tyme bag)).

(** Modelled from the spec: [needing.py] is not part of these sources;
    [updated(key)] holds when the [_tyme] of the bag at [key] differs from
    the mark stored at the update key. *)
Definition updated (m : Mine) (boxer box key : string) : outcome bool :=
  bag ← mine_get m key;
  mark ← mine_get m (update_keys boxer box key);
  Ok (negb (bool_decide (of_tyme (_tyme bag) = bag_value mark))).

(** *** [EndAct] *)

(** The key of the end bag of boxer [boxer]. *)
Definition end_keys (boxer : string) : string :=
  tokey [""; "boxer"; boxer; "end"].

(** [EndAct.__init__(nabe=Nabe.endo, **kwa)]: the end bag is created when
    absent. *)
Definition EndAct_init (m : Mine) (kwa : kwargs) : outcome (ActBase * Mine) :=
  let kwa := kwa_update_nabe kwa (default Nabe.endo (kw_nabe kwa)) in
  a ← ActBase_init kwa;
  boxer ← iop_required a "_boxer";
  let keys := end_keys boxer in
  match m !! keys with
  | Some _ => Ok (a, m)
  | None => Ok (a, <[keys := Bag_new]> m)
  end.

(** [EndAct.act]: [self.mine[keys].value = True]. *)
Definition EndAct_act (now : option tyme) (a : ActBase) (m : Mine)
  : outcome Mine :=
  boxer ← iop a "_boxer";
  mine_set_value now m (end_keys boxer) (VBool true).

(** *** [Count] and [Discount] *)

(** The key of the redo count of box [box] of boxer [boxer]. *)
Definition count_keys (boxer box : string) : string :=
  tokey [""; "boxer"; boxer; "box"; box; "count"].

(** [Count.__init__(nabe=Nabe.redo, **kwa)] and
    [Discount.__init__(nabe=Nabe.exdo, **kwa)] differ in the default nabe
    only: the count bag is created when absent. *)
Definition counter_init (nabe0 : nabe) (m : Mine) (kwa : kwargs)
  : outcome (ActBase * Mine) :=
  let kwa := kwa_update_nabe kwa (default nabe0 (kw_nabe kwa)) in
  a ← ActBase_init kwa;
  boxer ← iop_required a "_boxer";
  box ← iop_required a "_box";
  let keys := count_keys boxer box in
  match m !! keys with
  | Some _ => Ok (a, m)
  | None => Ok (a, <[keys := Bag_new]> m)
  end.

Definition Count_init : Mine → kwargs → outcome (ActBase * Mine) :=
  counter_init Nabe.redo.

Definition Discount_init : Mine → kwargs → outcome (ActBase * Mine) :=
  counter_init Nabe.exdo.

(** The float [t + 1]. *)
Variable tyme_succ : tyme → tyme.

(** [v + 1] for the values a bag can hold: a bool counts as 0 or 1, a str
    does not add to an int. *)
Definition value_incr (v : value tyme) : typed (value tyme) :=
  match v with
  | VNone => TypeError
  | VTyme t => Typed (VTyme (tyme_succ t))
  | VBool b => Typed (VInt (if b then 2 else 1))
  | VInt z => Typed (VInt (z + 1))
  | VStr _ => TypeError
  end.

(** [Count.act]: [bag.value = 0] when it is [None], else [bag.value += 1];
    [TypeError] leaves the mine as it is. *)
Definition Count_act (now : option tyme) (a : ActBase) (m : Mine)
  : outcome (typed Mine) :=
  boxer ← iop a "_boxer";
  box ← iop a "_box";
  let keys := count_keys boxer box in
  bag ← mine_get m keys;
  match bag_value bag with
  | VNone => m' ← mine_set_value now m keys (VInt 0); Ok (Typed m')
  | v =>
      match value_incr v with
      | Typed v' => m' ← mine_set_value now m keys v'; Ok (Typed m')
      | TypeError => Ok TypeError
      end
  end.

(** [Discount.act]: [self.mine[keys].value = None]. *)
Definition Discount_act (now : option tyme) (a : ActBase) (m : Mine)
  : outcome Mine :=
  boxer ← iop a "_boxer";
  box ← iop a "_box";
  mine_set_value now m (count_keys boxer box) VNone.

End Marks.

End Acting.

(** ** Concrete boxworks *)

Module Scenes.
Import Boxing.

Definition works0 : WorkDom :=
  {| wbox := None; wover := None; bxpre := "box"; bxidx := 0 |}.

Definition boxer0 : Boxer :=
  {| boxer_name := "boxer"; first := None; boxes := [];
     active_pile := []; box := None |}.

(** Runs [bx(name, over)] for each pair in turn, as the function given to
    [Boxer.make] does. *)
Fixpoint build (calls : list (option string * over_t))
    (st : Boxer * heap * WorkDom) : outcome (Boxer * heap * WorkDom) :=
  match calls with
  | [] => Ok st
  | (nm, ov) :: calls' =>
      let '(self, h, m) := st in
      '(self, h, m, _) ← bx 10 self h m nm ov;
      build calls' (self, h, m)
  end.

Definition heap_of (o : outcome (Boxer * heap * WorkDom)) : heap :=
  match o with
  | Ok (_, h, _) => h
  | _ => ∅
  end.

Definition boxer_of (o : outcome (Boxer * heap * WorkDom)) : Boxer :=
  match o with
  | Ok (self, _, _) => self
  | _ => boxer0
  end.

Definition works_of (o : outcome (Boxer * heap * WorkDom)) : WorkDom :=
  match o with
  | Ok (_, _, m) => m
  | _ => works0
  end.

(** What a call returns, the heap left aside. *)
Definition returned {A} (o : outcome (heap * A)) : outcome A :=
  '(_, a) ← o; Ok a.

(** The heap a call leaves. *)
Definition heap_after {A} (o : outcome (heap * A)) : heap :=
  match o with
  | Ok (h, _) => h
  | _ => ∅
  end.

(** Different branches of one tree:
    [bx("R", None); bx("A", "R"); bx("X", "A"); bx("Y", "A")],
    so that A.unders = [X, Y]. *)
Module S4.
Definition R : ref := 0.
Definition A : ref := 1.
Definition X : ref := 2.
Definition Y : ref := 3.
Definition made : outcome (Boxer * heap * WorkDom) :=
  build [(Some "R", ONone); (Some "A", OStr "R");
         (Some "X", OStr "A"); (Some "Y", OStr "A")]
        (boxer0, ∅, works0).
Definition h : heap := heap_of made.
Definition boxer : Boxer := boxer_of made.
Definition works : WorkDom := works_of made.    (* the current box is Y *)
End S4.

(** One pile: [bx("A", None); bx("B", "A"); bx("C", "B")]. *)
Module S3.
Definition A : ref := 0.
Definition B : ref := 1.
Definition C : ref := 2.
Definition h : heap :=
    heap_of (build [(Some "A", ONone); (Some "B", OStr "A");
                    (Some "C", OStr "B")]
                   (boxer0, ∅, works0)).
End S3.

(** Two trees:
    [bx("P", None); bx("Q", "P"); bx("R", None); bx("S", "R")]. *)
Module S5.
Definition P : ref := 0.
Definition Q : ref := 1.
Definition R : ref := 2.
Definition S : ref := 3.
Definition h : heap :=
    heap_of (build [(Some "P", ONone); (Some "Q", OStr "P");
                    (Some "R", ONone); (Some "S", OStr "R")]
                   (boxer0, ∅, works0)).
End S5.

(** A box A that is traced and then given an under Y:
    [A = Box(name="A")], [Y = Box(name="Y", over=A)], [A.pile],
    [A.unders.append(Y)]. *)
Module Stale.
Definition A : ref := 0.
Definition Y : ref := 1.
Definition h0 : heap :=
  match Box_init "A" ONone, Box_init "Y" (OBox A) with
  | Ok ba, Ok bb => <[Y := bb]> (<[A := ba]> ∅)
  | _, _ => ∅
  end.
Definition h1 : heap := heap_after (pile 10 h0 A).
Definition h2 : heap :=
  match unders_append h1 A Y with
  | Ok h => h
  | _ => ∅
  end.
End Stale.

(** Boxes with links still given by name:
    [a = Box(name="a", over="b")], [b = Box(name="b")],
    and a boxer whose [boxes] are [{"a": a, "b": b}]. *)
Module Unresolved.
Definition a : ref := 0.
Definition b : ref := 1.
Definition h : heap :=
  match Box_init "a" (OStr "b"), Box_init "b" ONone with
  | Ok ba, Ok bb => <[b := bb]> (<[a := ba]> ∅)
  | _, _ => ∅
  end.
Definition boxer : Boxer := with_boxes boxer0 [("a", a); ("b", b)].
(** The same, with the name of no box as the over of [a]. *)
Definition h_miss : heap :=
  match Box_init "a" (OStr "zz"), Box_init "b" ONone with
  | Ok ba, Ok bb => <[b := bb]> (<[a := ba]> ∅)
  | _, _ => ∅
  end.
End Unresolved.

(** A box made with an over and not added to the unders of that over:
    [A = Box(name="A")], [Y = Box(name="Y", over=A)]. *)
Module HalfLinked.
Definition A : ref := 0.
Definition Y : ref := 1.
Definition h : heap :=
  match Box_init "A" ONone, Box_init "Y" (OBox A) with
  | Ok ba, Ok bb => <[Y := bb]> (<[A := ba]> ∅)
  | _, _ => ∅
  end.
End HalfLinked.

(** A box that is its own over, and a box that is its own primary under:
    [A = Box(name="A"); A.over = A], [B = Box(name="B");
    B.unders.append(B)]. *)
Module Loops.
Definition A : ref := 0.
Definition B : ref := 1.
Definition h : heap :=
  match Box_init "A" (OBox A), Box_init "B" ONone with
  | Ok ba, Ok bb => <[B := with_unders bb [B]]> (<[A := ba]> ∅)
  | _, _ => ∅
  end.
End Loops.

(** A boxwork with tracts:
    [bx("R", None); bx("A", "R"); go("next"); go("R"); bx("X", "A")].
    When [go("next")] is called A has no next box yet. *)
Module Tracts.
Definition R : ref := 0.
Definition A : ref := 1.
Definition X : ref := 2.
Definition script : list verb :=
  [Vbx (Some "R") ONone; Vbx (Some "A") (OStr "R");
   Vgo (DStr "next") None; Vgo (DStr "R") (Some "True");
   Vbx (Some "X") (OStr "A")].
Definition made : outcome (Boxer * heap * WorkDom) :=
  run_verbs 10 script (boxer0, ∅, works0).
Definition h : heap := heap_of made.
Definition boxer : Boxer := boxer_of made.
Definition works : WorkDom := works_of made.
End Tracts.

(** A boxwork built by [bx], R over A and B, A over X, after which X is
    appended by hand to the unders of B, which is not its over:
    [B.unders.append(X)]. *)
Module SharedUnder.
Definition R : ref := 0.
Definition A : ref := 1.
Definition X : ref := 2.
Definition B : ref := 3.
Definition made : outcome (Boxer * heap * WorkDom) :=
  build [(Some "R", ONone); (Some "A", OStr "R"); (Some "X", OStr "A");
         (Some "B", OStr "R")] (boxer0, ∅, works0).
Definition h : heap :=
  match unders_append (heap_of made) B X with
  | Ok h => h
  | _ => ∅
  end.
End SharedUnder.

(** [A = Box(name="A"); B = Box(name="B", over=A); B.unders.append(A)]:
    the over of B is also its primary under. *)
Module Knot.
Definition A : ref := 0.
Definition B : ref := 1.
Definition h0 : heap :=
  match Box_init "A" ONone, Box_init "B" (OBox A) with
  | Ok ba, Ok bb => <[B := bb]> (<[A := ba]> ∅)
  | _, _ => ∅
  end.
Definition h : heap :=
  match unders_append h0 B A with
  | Ok h => h
  | _ => ∅
  end.
End Knot.

End Scenes.
(** The mine of scenario S6: a bag at key "flag", written at tyme 1/2, and
    an UpdateMark for it in box "box0" of boxer "boxer". *)
Module S6.
Import Acting.
Definition half : Qc := Q2Qc (Qmake 1 2).
Definition mine0 : gmap string (Bag Qc) :=
  {[ "flag" := {| bag_value := VInt 1; _tyme := Some half |} ]}.
Definition kwa : kwargs :=
  {| kw_name := Some "mark0";
     kw_iops := Some [("_boxer", "boxer"); ("_box", "box0");
                      ("_key", "flag")];
     kw_nabe := None |}.
Definition made : outcome (ActBase * gmap string (Bag Qc)) :=
  UpdateMark_init ActBase_init_spec mine0 kwa.
Definition act0 : ActBase :=
  match made with
  | Ok (a, _) => a
  | _ => {| ab_name := ""; iops := []; ab_nabe := "" |}
  end.
Definition mine1 : gmap string (Bag Qc) :=
  match made with
  | Ok (_, m) => m
  | _ => ∅
  end.
End S6.

(** ** Statements that are put to the test below *)

Section Statements.

Import Boxing Scenes Acting.

(** The statement that [exen(C, C)], for the bottom box C of the pile
    [A, B, C], returns ([C,B,A], [A,B,C], [], []). *)
Definition bottom_reentry_exits_whole_pile : Prop :=
  returned (exen 10 S3.h S3.C S3.C)
  = Ok (Some ([S3.C; S3.B; S3.A], [S3.A; S3.B; S3.C], [], [])).

(** The statement that a change of links after the trace shows in the next
    [pile]: whenever a box is given a further under after its pile was
    read, the next read is the trace along the links as they are then. *)
Definition pile_follows_links : Prop :=
  ∀ fuel h r h1 p u h2 h3 p',
    pile fuel h r = Ok (h1, p) →
    unders_append h1 r u = Ok h2 →
    pile fuel h2 r = Ok (h3, p') →
    is_trace h2 r p'.

(** The statement that [exen] never falls through its loop when the piles
    are traced, are the traces of near and far (each got by following
    over links up and primary under links down from the box), and hold no
    box twice. *)
Definition scan_never_falls_through : Prop :=
  ∀ fuel h near far N F,
    cached_pile h near = Some N → cached_pile h far = Some F →
    is_trace h near N → is_trace h far F → NoDup N → NoDup F →
    ∃ i, i < length N `min` length F ∧
         exen fuel h near far = Ok (h, Some (split_at N F i)).

(** The statement that every quadruple [exen] returns partitions the
    piles, and that its exits and enters share no box unless far is in the
    near pile. *)
Definition exen_partitions_piles : Prop :=
  ∀ fuel h near far h' exits enters rexits renters N F,
    exen fuel h near far = Ok (h', Some (exits, enters, rexits, renters)) →
    cached_pile h' near = Some N → cached_pile h' far = Some F →
    list_to_set rexits =@{gset ref} list_to_set renters ∧
    list_to_set exits ∪ list_to_set rexits =@{gset ref} list_to_set N ∧
    list_to_set enters ∪ list_to_set renters =@{gset ref} list_to_set F ∧
    (far ∉ N → list_to_set exits ∩ list_to_set enters =@{gset ref} ∅).

(** The statement that every traced pile has the box at its spot, the
    over links above it, the primary under links below it, and holds no
    box twice. *)
Definition traced_pile_acyclic : Prop :=
  ∀ fuel h B h' p s,
    _trace fuel h B = Ok h' →
    cached_pile h' B = Some p → cached_spot h' B = Some s →
    p !! s = Some B ∧
    (∀ i x y, i < s → p !! i = Some x → p !! S i = Some y →
              over_of h' y = Some (OBox x)) ∧
    (∀ i x y, s < i → p !! (i - 1) = Some x → p !! i = Some y →
              primary_of h' x = Some y) ∧
    NoDup p.

(** The statement that a Goact given a nabe other than [godo] is refused. *)
Definition other_nabe_is_refused (init : kwargs → outcome ActBase) : Prop :=
  ∀ dst nd kwa n,
    kw_nabe kwa = Some n → n ≠ Nabe.godo →
    Goact_init init dst nd kwa = Raise (HierError "Invalid nabe").

End Statements.

(** * Proofs *)

Lemma bind_Ok {A B} (m : outcome A) (k : A → outcome B) b :
  m ≫= k = Ok b → ∃ a, m = Ok a ∧ k a = Ok b.
Proof. destruct m; simpl; intros; eauto; discriminate. Qed.

(** ** The scan of [exen] *)

Section ExenScan.

Import Boxing.

Implicit Types (far : ref) (nears fars : list ref) (i j : nat).

Lemma uncommon_true far nears fars i :
  uncommon far nears fars i = Ok true ↔ uncommon_at far nears fars i.
Proof.
  unfold uncommon, uncommon_at. split.
  - destruct (nears !! i) as [n|], (fars !! i) as [f|]; try discriminate.
    intros [= H]. exists n, f. repeat split.
    apply orb_true_iff in H as [H|H].
    + left. by apply bool_decide_eq_true in H.
    + right. apply negb_true_iff in H. by apply bool_decide_eq_false in H.
  - intros (n & f & -> & -> & [->|Hne]); f_equal.
    + by rewrite bool_decide_eq_true_2.
    + rewrite (bool_decide_eq_false_2 (f = n)) by done. apply orb_true_r.
Qed.

Lemma uncommon_false far nears fars i :
  uncommon far nears fars i = Ok false ↔ common_at far nears fars i.
Proof.
  unfold uncommon, common_at. split.
  - destruct (nears !! i) as [n|], (fars !! i) as [f|]; try discriminate.
    intros [= H]. apply orb_false_iff in H as [H1 H2].
    apply bool_decide_eq_false in H1. apply negb_false_iff in H2.
    apply bool_decide_eq_true in H2. subst. by exists n.
  - intros (n & -> & -> & Hne). f_equal.
    rewrite (bool_decide_eq_false_2 (far = n)) by done.
    by rewrite bool_decide_eq_true_2.
Qed.

Lemma uncommon_defined far nears fars i :
  i < length nears `min` length fars →
  ∃ c, uncommon far nears fars i = Ok c.
Proof.
  intros Hi. unfold uncommon.
  destruct (lookup_lt_is_Some_2 nears i) as [n ->]; [lia|].
  destruct (lookup_lt_is_Some_2 fars i) as [f ->]; [lia|]. eauto.
Qed.

(** The loop over [a, a+1, ..., a+n-1] stops at the first index where the
    test holds. *)
Lemma exen_loop_hit far nears fars n a i :
  a ≤ i < a + n →
  uncommon_at far nears fars i →
  (∀ j, a ≤ j < i → common_at far nears fars j) →
  exen_loop far nears fars (seq a n) = Ok (Some (split_at nears fars i)).
Proof.
  revert a. induction n as [|n IH]; intros a Hi Hu Hc; [lia|].
  simpl. destruct (decide (a = i)) as [->|Hne].
  - apply uncommon_true in Hu. by rewrite Hu.
  - assert (Hca : common_at far nears fars a) by (apply Hc; lia).
    apply uncommon_false in Hca. rewrite Hca. simpl.
    apply IH; [lia|done|]. intros j Hj. apply Hc. lia.
Qed.

(** The loop falls through when the test fails on the whole range. *)
Lemma exen_loop_miss far nears fars n a :
  (∀ j, a ≤ j < a + n → common_at far nears fars j) →
  exen_loop far nears fars (seq a n) = Ok None.
Proof.
  revert a. induction n as [|n IH]; intros a Hc; [done|].
  simpl. assert (Hca : common_at far nears fars a) by (apply Hc; lia).
  apply uncommon_false in Hca. rewrite Hca. simpl.
  apply IH. intros j Hj. apply Hc. lia.
Qed.

(** Whatever the loop returns, it is the split at the first index where the
    test holds, or the fall-through after a range of failed tests. *)
Lemma exen_loop_inv far nears fars n a r :
  exen_loop far nears fars (seq a n) = Ok r →
  match r with
  | Some q => ∃ i, a ≤ i < a + n ∧ uncommon_at far nears fars i ∧
                   (∀ j, a ≤ j < i → common_at far nears fars j) ∧
                   q = split_at nears fars i
  | None => ∀ j, a ≤ j < a + n → common_at far nears fars j
  end.
Proof.
  revert a. induction n as [|n IH]; intros a H; simpl in H.
  - injection H as <-. intros j Hj. lia.
  - apply bind_Ok in H as ([|] & Hc & H).
    + injection H as <-. exists a. split; [lia|].
      split; [by apply uncommon_true|]. split; [intros; lia|done].
    + apply uncommon_false in Hc. apply IH in H. destruct r as [q|].
      * destruct H as (i & Hi & Hu & Hlt & ->). exists i.
        split; [lia|]. split; [done|]. split; [|done].
        intros j Hj. destruct (decide (j = a)) as [->|]; [done|].
        apply Hlt. lia.
      * intros j Hj. destruct (decide (j = a)) as [->|]; [done|].
        apply H. lia.
Qed.

(** Within [range(min(len(nears), len(fars)))] no index is out of range:
    the scan never raises. *)
Lemma exen_loop_defined far nears fars n a :
  a + n ≤ length nears `min` length fars →
  ∃ r, exen_loop far nears fars (seq a n) = Ok r.
Proof.
  revert a. induction n as [|n IH]; intros a Hb; simpl; [eauto|].
  destruct (uncommon_defined far nears fars a) as [c ->]; [lia|].
  simpl. destruct c; [eauto|]. apply IH. lia.
Qed.

Lemma exen_piles_defined far nears fars :
  ∃ r, exen_piles far nears fars = Ok r.
Proof. apply exen_loop_defined. lia. Qed.

Lemma uncommon_at_lt far nears fars i :
  uncommon_at far nears fars i → i < length nears `min` length fars.
Proof.
  intros (n & f & Hn & Hf & _).
  apply lookup_lt_Some in Hn. apply lookup_lt_Some in Hf. lia.
Qed.

Lemma exen_piles_first far nears fars i :
  first_uncommon far nears fars i →
  exen_piles far nears fars = Ok (Some (split_at nears fars i)).
Proof.
  intros [Hu Hc]. unfold exen_piles.
  apply exen_loop_hit; [|done|].
  - apply uncommon_at_lt in Hu. lia.
  - intros j Hj. apply Hc. lia.
Qed.

Lemma exen_piles_Some far nears fars q :
  exen_piles far nears fars = Ok (Some q) →
  ∃ i, first_uncommon far nears fars i ∧ q = split_at nears fars i.
Proof.
  intros H. apply exen_loop_inv in H as (i & Hi & Hu & Hc & ->).
  exists i. split; [|done]. split; [done|].
  intros j Hj. apply Hc. lia.
Qed.

Lemma exen_piles_None far nears fars :
  exen_piles far nears fars = Ok None →
  ∀ j, j < length nears `min` length fars → common_at far nears fars j.
Proof.
  intros H j Hj. apply exen_loop_inv in H. apply H. lia.
Qed.

End ExenScan.

(** ** What [exen] returns *)

Section ExenResult.

Import Boxing Scenes.

Lemma exen_unfold fuel h near far h1 h2 nears fars :
  pile fuel h near = Ok (h1, nears) →
  pile fuel h1 far = Ok (h2, fars) →
  exen fuel h near far = (q ← exen_piles far nears fars; Ok (h2, q)).
Proof. intros H1 H2. unfold exen. rewrite H1. simpl. by rewrite H2. Qed.

Lemma exen_inv fuel h near far h2 r :
  exen fuel h near far = Ok (h2, r) →
  ∃ h1 nears fars,
    pile fuel h near = Ok (h1, nears) ∧ pile fuel h1 far = Ok (h2, fars) ∧
    exen_piles far nears fars = Ok r.
Proof.
  unfold exen. intros H.
  apply bind_Ok in H as ([h1 nears] & H1 & H).
  apply bind_Ok in H as ([h2' fars] & H2 & H).
  apply bind_Ok in H as (q & Hq & H). injection H as -> ->.
  by exists h1, nears, fars.
Qed.

(** C1.  With N = near.pile and F = far.pile, and i the smallest index at
    which [far is N[i]] or [F[i] is not N[i]], [exen(near, far)] returns
    (reverse(N[i:]), F[i:], reverse(N[:i]), F[:i]).  In particular, with
    near pile [R,A,X] and far pile [R,A,Y] (far being Y, outside the near
    pile) it returns ([X], [Y], [A,R], [R,A]), and with piles [P,Q] and
    [R,S] of two trees it returns ([Q,P], [R,S], [], []); both on the
    piles alone and on the boxworks built by [bx]. *)
Theorem exen_splits_at_first_uncommon :
  (∀ fuel h near far h1 h2 N F i,
     pile fuel h near = Ok (h1, N) →
     pile fuel h1 far = Ok (h2, F) →
     first_uncommon far N F i →
     exen fuel h near far
     = Ok (h2, Some (reverse (drop i N), drop i F,
                     reverse (take i N), take i F))) ∧
  (∀ far R A X Y : ref,
     far ≠ R → far ≠ A → Y ≠ X →
     exen_piles far [R; A; X] [R; A; Y]
     = Ok (Some ([X], [Y], [A; R], [R; A]))) ∧
  (∀ far P Q R S : ref,
     R ≠ P →
     exen_piles far [P; Q] [R; S] = Ok (Some ([Q; P], [R; S], [], []))) ∧
  (returned (pile 10 S4.h S4.X) = Ok [S4.R; S4.A; S4.X] ∧
   returned (pile 10 S4.h S4.Y) = Ok [S4.R; S4.A; S4.Y] ∧
   returned (exen 10 S4.h S4.X S4.Y)
   = Ok (Some ([S4.X], [S4.Y], [S4.A; S4.R], [S4.R; S4.A]))) ∧
  (returned (pile 10 S5.h S5.Q) = Ok [S5.P; S5.Q] ∧
   returned (pile 10 S5.h S5.S) = Ok [S5.R; S5.S] ∧
   returned (exen 10 S5.h S5.Q S5.S)
   = Ok (Some ([S5.Q; S5.P], [S5.R; S5.S], [], []))).
Proof.
  split; [|split; [|split; [|split]]].
  - intros fuel h near far h1 h2 N F i H1 H2 Hi.
    rewrite (exen_unfold _ _ _ _ _ _ _ _ H1 H2).
    by rewrite (exen_piles_first _ _ _ _ Hi).
  - intros far R A X Y HR HA HXY.
    apply (exen_piles_first far [R; A; X] [R; A; Y] 2). split.
    + exists X, Y. auto.
    + intros [|[|j]] Hj; [by exists R|by exists A|lia].
  - intros far P Q R S HRP.
    apply (exen_piles_first far [P; Q] [R; S] 0). split.
    + exists P, R. auto.
    + intros j Hj. lia.
  - by vm_compute.
  - by vm_compute.
Qed.

Lemma exen_splits_at_first_uncommon_witness :
  exen 10 S4.h S4.X S4.Y
  = Ok (heap_after (exen 10 S4.h S4.X S4.Y),
        Some (reverse (drop 2 [S4.R; S4.A; S4.X]), drop 2 [S4.R; S4.A; S4.Y],
              reverse (take 2 [S4.R; S4.A; S4.X]),
              take 2 [S4.R; S4.A; S4.Y])).
Proof.
  apply (proj1 exen_splits_at_first_uncommon 10 S4.h S4.X S4.Y
           (heap_after (pile 10 S4.h S4.X))).
  - vm_compute. reflexivity.
  - vm_compute. reflexivity.
  - split.
    + exists S4.X, S4.Y. repeat split; first [reflexivity | right; discriminate].
    + intros [|[|j]] Hj; [by exists S4.R|by exists S4.A|lia].
Defined.

End ExenResult.

(** ** Piles *)

Section Trace.

Import Boxing.

Implicit Types (h : heap) (p pile : list ref) (r self : ref).

Lemma deref_Ok h r b : deref h r = Ok b ↔ h !! r = Some b.
Proof.
  unfold deref. destruct (h !! r); split; intros; simplify_eq; done.
Qed.

Lemma trace_up_falsy fuel h o acc :
  truthy o = false → trace_up fuel h o acc = Ok acc.
Proof.
  destruct o as [|r|s]; intros Ht; [by destruct fuel|done|].
  destruct fuel; simpl in *; by rewrite Ht.
Qed.

Lemma trace_up_str fuel h s acc :
  truthy (OStr s) = true → trace_up fuel h (OStr s) acc = Raise AttributeError.
Proof. intros Ht. destruct fuel; simpl in *; by rewrite Ht. Qed.

Lemma trace_up_path fuel h o acc p :
  trace_up fuel h o acc = Ok p →
  ∃ rs, p = reverse rs ++ acc ∧ over_path h o rs.
Proof.
  revert o acc. induction fuel as [|fuel IH]; intros o acc H.
  - destruct (truthy o) eqn:Ht.
    + destruct o as [|r|s]; [done|done|]. by rewrite trace_up_str in H.
    + rewrite trace_up_falsy in H by done. injection H as <-. by exists [].
  - destruct (truthy o) eqn:Ht.
    + destruct o as [|r|s]; [done| |by rewrite trace_up_str in H].
      simpl in H.
      apply bind_Ok in H as (b & Hb & H). apply deref_Ok in Hb.
      apply IH in H as (rs & -> & Hrs). exists (r :: rs). split.
      * rewrite reverse_cons, <-app_assoc. done.
      * simpl. eauto.
    + rewrite trace_up_falsy in H by done. injection H as <-. by exists [].
Qed.

Lemma trace_down_path fuel h u acc p :
  trace_down fuel h u acc = Ok p →
  ∃ rs, p = acc ++ rs ∧ under_path h u rs.
Proof.
  revert u acc. induction fuel as [|fuel IH]; intros u acc H.
  - destruct u as [r|]; simpl in H; [done|]. injection H as <-.
    exists []. by rewrite app_nil_r.
  - destruct u as [r|]; simpl in H.
    + apply bind_Ok in H as (b & Hb & H). apply deref_Ok in Hb.
      apply IH in H as (rs & -> & Hrs). exists (r :: rs). split.
      * by rewrite <-app_assoc.
      * simpl. eauto.
    + injection H as <-. exists []. by rewrite app_nil_r.
Qed.

(** The paths are found whenever the fuel covers their length. *)
Lemma over_path_trace_up h o rs acc fuel :
  over_path h o rs → length rs ≤ fuel →
  trace_up fuel h o acc = Ok (reverse rs ++ acc).
Proof.
  revert o acc fuel.
  induction rs as [|r rs IH]; intros o acc fuel Hp Hf; simpl in Hp.
  - by rewrite trace_up_falsy.
  - destruct Hp as (-> & b & Hb & Hp).
    destruct fuel as [|fuel]; [simpl in Hf; lia|].
    simpl. unfold deref. rewrite Hb. simpl.
    rewrite (IH (over b) (r :: acc) fuel Hp); [|simpl in Hf; lia].
    by rewrite reverse_cons, <-app_assoc.
Qed.

Lemma under_path_trace_down h u rs acc fuel :
  under_path h u rs → length rs ≤ fuel →
  trace_down fuel h u acc = Ok (acc ++ rs).
Proof.
  revert u acc fuel.
  induction rs as [|r rs IH]; intros u acc fuel Hp Hf; simpl in Hp.
  - subst u. destruct fuel; simpl; by rewrite app_nil_r.
  - destruct Hp as (-> & b & Hb & Hp). destruct fuel as [|fuel]; [simpl in Hf; lia|].
    simpl. unfold deref. rewrite Hb. simpl.
    rewrite (IH (primary b) (acc ++ [r]) fuel Hp); [|simpl in Hf; lia].
    by rewrite <-app_assoc.
Qed.

(** What [_trace] leaves in the heap. *)
Lemma _trace_inv fuel h self h' :
  _trace fuel h self = Ok h' →
  ∃ b ups downs t,
    h !! self = Some b ∧
    over_path h (over b) ups ∧ under_path h (primary b) downs ∧
    h' = <[self := with_trace b (reverse ups ++ [self] ++ downs)
                               (length ups) t]> h.
Proof.
  unfold _trace. intros H.
  apply bind_Ok in H as (b & Hb & H). apply deref_Ok in Hb.
  apply bind_Ok in H as (up & Hup & H).
  apply trace_up_path in Hup as (ups & -> & Hups).
  apply bind_Ok in H as (pl & Hdn & H).
  apply trace_down_path in Hdn as (downs & -> & Hdowns).
  apply bind_Ok in H as (nu & _ & H).
  apply bind_Ok in H as (nd & _ & H).
  injection H as <-.
  exists b, ups, downs. eexists. split; [done|]. split; [done|].
  split; [done|]. f_equal. rewrite app_nil_r, <-app_assoc. f_equal.
  rewrite length_app, length_reverse. simpl. lia.
Qed.

(** The links along the two paths. *)
Lemma over_path_links h o rs j y x :
  over_path h o rs →
  rs !! j = Some y → rs !! S j = Some x →
  over_of h y = Some (OBox x).
Proof.
  revert o j. induction rs as [|r rs IH]; intros o j Hp Hy Hx; [done|].
  destruct Hp as (-> & b & Hb & Hp). destruct j as [|j]; simpl in *.
  - injection Hy as <-. destruct rs as [|r' rs]; [done|].
    injection Hx as <-. destruct Hp as (Ho & _).
    unfold over_of. by rewrite Hb, <-Ho.
  - eauto.
Qed.

Lemma over_path_top h o rs x :
  over_path h o rs → last rs = Some x →
  ∃ o', over_of h x = Some o' ∧ truthy o' = false.
Proof.
  revert o. induction rs as [|r rs IH]; intros o Hp Hl; [done|].
  destruct Hp as (-> & b & Hb & Hp). destruct rs as [|r' rs].
  - injection Hl as <-. exists (over b). unfold over_of. by rewrite Hb.
  - eapply IH; [done|]. by rewrite last_cons_cons in Hl.
Qed.

Lemma under_path_links h u rs j x y :
  under_path h u rs →
  rs !! j = Some x → rs !! S j = Some y →
  primary_of h x = Some y.
Proof.
  revert u j. induction rs as [|r rs IH]; intros u j Hp Hx Hy; [done|].
  destruct Hp as (-> & b & Hb & Hp). destruct j as [|j]; simpl in *.
  - injection Hx as <-. destruct rs as [|r' rs]; [done|].
    injection Hy as <-. destruct Hp as (Hu & _).
    unfold primary_of. by rewrite Hb.
  - eauto.
Qed.

Lemma under_path_bottom h u rs x :
  under_path h u rs → last rs = Some x →
  ∃ b, h !! x = Some b ∧ unders b = [].
Proof.
  revert u. induction rs as [|r rs IH]; intros u Hp Hl; [done|].
  destruct Hp as (-> & b & Hb & Hp). destruct rs as [|r' rs].
  - injection Hl as <-. exists b. split; [done|]. simpl in Hp.
    unfold primary in Hp. by destruct (unders b).
  - eapply IH; [done|]. by rewrite last_cons_cons in Hl.
Qed.

(** A path is determined by where it starts. *)
Lemma under_path_func h u rs1 rs2 :
  under_path h u rs1 → under_path h u rs2 → rs1 = rs2.
Proof.
  revert u rs2. induction rs1 as [|r rs1 IH]; intros u [|r2 rs2] H1 H2;
    simpl in *.
  - done.
  - destruct H2 as [-> _]. done.
  - destruct H1 as [-> _]. done.
  - destruct H1 as (-> & b & Hb & H1). destruct H2 as (? & b2 & Hb2 & H2).
    simplify_eq. f_equal. eauto.
Qed.

Lemma under_path_drop h u rs k r :
  under_path h u rs → rs !! k = Some r → under_path h (Some r) (drop k rs).
Proof.
  revert u k. induction rs as [|r0 rs IH]; intros u k Hp Hk; [done|].
  destruct Hp as (-> & b & Hb & Hp). destruct k as [|k]; simpl in *.
  - injection Hk as <-. eauto.
  - eauto.
Qed.

Lemma under_path_NoDup h u rs : under_path h u rs → NoDup rs.
Proof.
  revert u. induction rs as [|r rs IH]; intros u Hp; [constructor|].
  pose proof Hp as (-> & b & Hb & Hp'). constructor; [|eauto].
  intros Hin. apply list_elem_of_lookup in Hin as [k Hk].
  pose proof (under_path_drop h (Some r) (r :: rs) (S k) r Hp Hk) as Hd.
  pose proof (under_path_func _ _ _ _ Hp Hd) as Heq. simpl in Heq.
  apply (f_equal length) in Heq. rewrite length_drop in Heq.
  simpl in Heq. lia.
Qed.

(** Two piles whose over links lead up them hold a common box at the same
    index, below equal prefixes. *)
Lemma over_linked_common h N F a b x :
  over_linked h N → over_linked h F →
  N !! a = Some x → F !! b = Some x →
  a = b ∧ ∀ k, k ≤ a → N !! k = F !! k.
Proof.
  intros [HNtop HN] [HFtop HF]. revert b x.
  induction a as [|a IH]; intros b x Ha Hb.
  - destruct (HNtop x Ha) as (o & Ho & Hfalsy).
    destruct b as [|b].
    + split; [done|]. intros k Hk. replace k with 0 by lia. congruence.
    + destruct (lookup_lt_is_Some_2 F b) as [y Hy].
      { apply lookup_lt_Some in Hb. lia. }
      rewrite (HF b y x Hy Hb) in Ho. injection Ho as <-. done.
  - destruct (lookup_lt_is_Some_2 N a) as [y Hy].
    { apply lookup_lt_Some in Ha. lia. }
    pose proof (HN a y x Hy Ha) as Hover.
    destruct b as [|b].
    + destruct (HFtop x Hb) as (o & Ho & Hfalsy).
      rewrite Hover in Ho. injection Ho as <-. done.
    + destruct (lookup_lt_is_Some_2 F b) as [y' Hy'].
      { apply lookup_lt_Some in Hb. lia. }
      pose proof (HF b y' x Hy' Hb) as Hover'.
      rewrite Hover in Hover'. injection Hover' as <-.
      destruct (IH b y Hy Hy') as [-> Hpre]. split; [done|].
      intros k Hk. destruct (decide (k = S b)) as [->|]; [congruence|].
      apply Hpre. lia.
Qed.

Lemma over_linked_NoDup h p : over_linked h p → NoDup p.
Proof.
  intros Hp. apply NoDup_alt. intros i j x Hi Hj.
  by destruct (over_linked_common h p p i j x Hp Hp Hi Hj).
Qed.

(** The shape of a traced pile: the overs top down, the box, its primary
    unders. *)
Section TracedPile.

Variables (h : heap) (self : ref) (b : Box) (ups downs : list ref).
Hypothesis Hself : h !! self = Some b.
Hypothesis Hups : over_path h (over b) ups.
Hypothesis Hdowns : under_path h (primary b) downs.

Let p := reverse ups ++ [self] ++ downs.

Lemma traced_pile_spot : p !! length ups = Some self.
Proof using Type.
  subst p. rewrite lookup_app_r by (rewrite length_reverse; lia).
  rewrite length_reverse. by replace (length ups - length ups) with 0 by lia.
Qed.

Lemma traced_pile_upper i :
  i ≤ length ups → p !! i = (self :: ups) !! (length ups - i).
Proof using Type.
  intros Hi. subst p. destruct (decide (i = length ups)) as [->|Hne].
  - rewrite lookup_app_r by (rewrite length_reverse; lia).
    rewrite length_reverse. by replace (length ups - length ups) with 0 by lia.
  - rewrite lookup_app_l by (rewrite length_reverse; lia).
    rewrite reverse_lookup by lia.
    replace (length ups - i) with (S (length ups - S i)) by lia. done.
Qed.

Lemma traced_pile_lower i :
  length ups ≤ i → p !! i = (self :: downs) !! (i - length ups).
Proof using Type.
  intros Hi. subst p. rewrite lookup_app_r by (rewrite length_reverse; lia).
  by rewrite length_reverse.
Qed.

Lemma traced_pile_over i x y :
  i < length ups → p !! i = Some x → p !! S i = Some y →
  over_of h y = Some (OBox x).
Proof using Hself Hups.
  intros Hi Hx Hy.
  rewrite traced_pile_upper in Hx by lia.
  rewrite traced_pile_upper in Hy by lia.
  replace (length ups - i) with (S (length ups - S i)) in Hx by lia.
  eapply (over_path_links h (OBox self) (self :: ups)); [|done|done].
  simpl. eauto.
Qed.

Lemma traced_pile_under i x y :
  length ups < i → p !! (i - 1) = Some x → p !! i = Some y →
  primary_of h x = Some y.
Proof using Hself Hdowns.
  intros Hi Hx Hy.
  rewrite traced_pile_lower in Hx by lia.
  rewrite traced_pile_lower in Hy by lia.
  replace (i - length ups) with (S (i - 1 - length ups)) in Hy by lia.
  eapply (under_path_links h (Some self) (self :: downs)); [|done|done].
  simpl. eauto.
Qed.

Lemma traced_pile_top x :
  p !! 0 = Some x → ∃ o, over_of h x = Some o ∧ truthy o = false.
Proof using Hself Hups.
  intros Hx. rewrite traced_pile_upper in Hx by lia.
  replace (length ups - 0) with (length ups) in Hx by lia.
  eapply (over_path_top h (OBox self) (self :: ups)); [simpl; eauto|].
  rewrite last_lookup. simpl. done.
Qed.

Lemma traced_pile_bottom x :
  last p = Some x → ∃ bx, h !! x = Some bx ∧ unders bx = [].
Proof using Hself Hdowns.
  intros Hx. eapply (under_path_bottom h (Some self) (self :: downs));
    [simpl; eauto|].
  subst p. rewrite app_assoc in Hx.
  destruct downs as [|d ds _] using rev_ind.
  - rewrite app_nil_r, last_snoc in Hx. done.
  - rewrite app_assoc, last_snoc in Hx.
    by rewrite app_comm_cons, last_snoc.
Qed.

Lemma traced_pile_length : length p = length ups + 1 + length downs.
Proof using Type.
  subst p. rewrite !length_app, length_reverse. simpl. lia.
Qed.

(** The part of the pile down to the box is linked by overs. *)
Lemma traced_pile_upper_linked : over_linked h (take (S (length ups)) p).
Proof using Hself Hups.
  split.
  - intros x Hx. rewrite lookup_take_lt in Hx by lia.
    by apply traced_pile_top.
  - intros i x y Hx Hy.
    assert (S i < S (length ups)) as Hi.
    { apply lookup_lt_Some in Hy. rewrite length_take in Hy. lia. }
    rewrite lookup_take_lt in Hx by lia.
    rewrite lookup_take_lt in Hy by lia.
    eapply traced_pile_over; [|done..]. lia.
Qed.

(** When primary unders point back, the whole pile is linked by overs. *)
Lemma traced_pile_over_linked : unders_point_back h → over_linked h p.
Proof using Hself Hups Hdowns.
  intros Hback. split; [apply traced_pile_top|].
  intros i x y Hx Hy. destruct (decide (i < length ups)) as [Hlt|Hge].
  - by eapply traced_pile_over.
  - apply Hback. eapply (traced_pile_under (S i)); [lia| |done].
    by replace (S i - 1) with i by lia.
Qed.

End TracedPile.

(** Paths depend on the links only. *)
Lemma same_links_with_trace h self b p s t :
  h !! self = Some b → same_links h (<[self := with_trace b p s t]> h).
Proof.
  intros Hb r. destruct (decide (self = r)) as [->|Hne].
  - by rewrite lookup_insert_eq, Hb.
  - by rewrite lookup_insert_ne.
Qed.

Lemma same_links_lookup h h' r b :
  same_links h h' → h !! r = Some b →
  ∃ b', h' !! r = Some b' ∧ over b' = over b ∧ unders b' = unders b.
Proof.
  intros Hl Hb. destruct (Hl r) as [Ho Hu]. rewrite Hb in Ho, Hu.
  destruct (h' !! r) as [b'|]; [|done]. simpl in *. simplify_eq. eauto.
Qed.

Lemma same_links_sym h h' : same_links h h' → same_links h' h.
Proof. intros Hl r. by destruct (Hl r). Qed.

Lemma same_links_over_of h h' r :
  same_links h h' → over_of h' r = over_of h r.
Proof. intros Hl. unfold over_of. by destruct (Hl r). Qed.

Lemma same_links_primary_of h h' r :
  same_links h h' → primary_of h' r = primary_of h r.
Proof.
  intros Hl. unfold primary_of, primary. destruct (Hl r) as [_ Hu].
  destruct (h !! r), (h' !! r); simpl in *; congruence.
Qed.

Lemma over_path_ext h h' o rs :
  same_links h h' → over_path h o rs → over_path h' o rs.
Proof.
  intros Hl. revert o. induction rs as [|r rs IH]; intros o Hp; [done|].
  destruct Hp as (-> & b & Hb & Hp). split; [done|].
  destruct (same_links_lookup h h' r b Hl Hb) as (b' & Hb' & Ho & _).
  exists b'. split; [done|]. rewrite Ho. eauto.
Qed.

Lemma under_path_ext h h' u rs :
  same_links h h' → under_path h u rs → under_path h' u rs.
Proof.
  intros Hl. revert u. induction rs as [|r rs IH]; intros u Hp; [done|].
  destruct Hp as (-> & b & Hb & Hp). split; [done|].
  destruct (same_links_lookup h h' r b Hl Hb) as (b' & Hb' & _ & Hu).
  exists b'. split; [done|]. unfold primary. rewrite Hu. eauto.
Qed.

Lemma is_trace_ext h h' self p :
  same_links h h' → is_trace h self p → is_trace h' self p.
Proof.
  intros Hl (b & ups & downs & Hb & Hup & Hdn & ->).
  destruct (same_links_lookup h h' self b Hl Hb) as (b' & Hb' & Ho & Hu).
  exists b', ups, downs. split; [done|]. rewrite Ho. unfold primary.
  rewrite Hu. eauto using over_path_ext, under_path_ext.
Qed.

Lemma unders_point_back_ext h h' :
  same_links h h' → unders_point_back h → unders_point_back h'.
Proof.
  intros Hl Hb x y Hxy. rewrite (same_links_primary_of h h') in Hxy by done.
  rewrite (same_links_over_of h h') by done. by apply Hb.
Qed.

Lemma is_trace_over_linked h self p :
  is_trace h self p → unders_point_back h → over_linked h p.
Proof.
  intros (b & ups & downs & Hb & Hu & Hd & ->) Hback.
  by eapply traced_pile_over_linked.
Qed.

(** What [_trace] caches is the trace of the box. *)
Lemma _trace_caches fuel h self h' :
  _trace fuel h self = Ok h' →
  ∃ p s, cached_pile h' self = Some p ∧ cached_spot h' self = Some s ∧
         same_links h h' ∧ is_trace h self p ∧
         ∃ b ups downs, h !! self = Some b ∧ over_path h (over b) ups ∧
           under_path h (primary b) downs ∧
           p = reverse ups ++ [self] ++ downs ∧ s = length ups.
Proof.
  intros H. apply _trace_inv in H as (b & ups & downs & t & Hb & Hu & Hd & ->).
  exists (reverse ups ++ [self] ++ downs), (length ups).
  unfold cached_pile, cached_spot. rewrite lookup_insert_eq. simpl.
  split; [done|]. split; [done|].
  split; [by apply same_links_with_trace|].
  split; [by exists b, ups, downs|]. by exists b, ups, downs.
Qed.

(** The properties return what is cached. *)
Lemma pile_cached fuel h self p :
  cached_pile h self = Some p → pile fuel h self = Ok (h, p).
Proof.
  unfold cached_pile, pile, deref. destruct (h !! self) as [b|]; [|done].
  simpl. by intros ->.
Qed.

Lemma spot_cached fuel h self s :
  cached_spot h self = Some s → spot fuel h self = Ok (h, s).
Proof.
  unfold cached_spot, spot, deref. destruct (h !! self) as [b|]; [|done].
  simpl. by intros ->.
Qed.

(** [_trace] returns whenever the overs above the box and the primary
    unders below it come to an end, given fuel for both walks. *)
Lemma over_path_in_heap h o rs r :
  over_path h o rs → r ∈ rs → is_Some (h !! r).
Proof.
  revert o. induction rs as [|r0 rs IH]; intros o Hp Hin.
  - by apply elem_of_nil in Hin.
  - destruct Hp as (-> & b & Hb & Hp).
    apply elem_of_cons in Hin as [->|Hin]; [by eexists|eauto].
Qed.

Lemma under_path_in_heap h u rs r :
  under_path h u rs → r ∈ rs → is_Some (h !! r).
Proof.
  revert u. induction rs as [|r0 rs IH]; intros u Hp Hin.
  - by apply elem_of_nil in Hin.
  - destruct Hp as (-> & b & Hb & Hp).
    apply elem_of_cons in Hin as [->|Hin]; [by eexists|eauto].
Qed.

Lemma names_defined h rs :
  (∀ r, r ∈ rs → is_Some (h !! r)) → ∃ ns, names h rs = Ok ns.
Proof.
  induction rs as [|r rs IH]; intros Hin; simpl; [eauto|].
  destruct (Hin r) as [b Hb]; [apply list_elem_of_here|].
  unfold deref. rewrite Hb. simpl.
  destruct IH as [ns ->]; [|simpl; eauto].
  intros r' Hr'. apply Hin. by apply list_elem_of_further.
Qed.

Lemma _trace_returns fuel h self b ups downs :
  h !! self = Some b →
  over_path h (over b) ups → under_path h (primary b) downs →
  length ups ≤ fuel → length downs ≤ fuel →
  ∃ h', _trace fuel h self = Ok h' ∧
        cached_pile h' self = Some (reverse ups ++ [self] ++ downs) ∧
        cached_spot h' self = Some (length ups).
Proof.
  intros Hb Hu Hd Hfu Hfd.
  assert (∀ r, r ∈ reverse ups ++ [self] ++ downs → is_Some (h !! r)) as Hin.
  { intros r [Hr|[Hr|Hr]%elem_of_app]%elem_of_app.
    - rewrite elem_of_reverse in Hr. exact (over_path_in_heap h _ ups r Hu Hr).
    - apply list_elem_of_singleton in Hr as ->. by eexists.
    - exact (under_path_in_heap h _ downs r Hd Hr). }
  unfold _trace, deref. rewrite Hb. simpl.
  rewrite (over_path_trace_up h (over b) ups [] fuel Hu Hfu). simpl.
  rewrite app_nil_r.
  rewrite (under_path_trace_down h (primary b) downs _ fuel Hd Hfd). simpl.
  rewrite <-app_assoc.
  repeat match goal with
  | |- context [names h ?l] =>
      let Hn := fresh "Hn" in
      destruct (names_defined h l) as [? Hn];
      [ intros r Hr; apply Hin;
        first [exact (subseteq_take _ _ r Hr) | exact (subseteq_drop _ _ r Hr)]
      | rewrite Hn; simpl ]
  end.
  eexists. split; [done|].
  unfold cached_pile, cached_spot. rewrite lookup_insert_eq. simpl.
  split; [done|]. f_equal. rewrite length_app, length_reverse. simpl. lia.
Qed.

End Trace.
(** ** Pile integrity *)

Section PileIntegrity.

Import Boxing Scenes.

(** C4, as stated, fails: for [A = Box(name="A")],
    [B = Box(name="B", over=A)] and [B.unders.append(A)], tracing B goes up
    to A and down to A again: the pile of B is [A, B, A], with spot 1, and
    holds A twice. *)
Lemma traced_pile_repeats_counterexample : ¬ traced_pile_acyclic.
Proof.
  intros Hall.
  destruct (Hall 10 Knot.h Knot.B (heap_after (pile 10 Knot.h Knot.B))
              [Knot.A; Knot.B; Knot.A] 1) as (_ & _ & _ & Hnd);
    [vm_compute; reflexivity..|].
  apply NoDup_cons in Hnd as [Hnot _]. apply Hnot.
  apply list_elem_of_further, list_elem_of_here.
Qed.

(** C4, amended.  After box B is traced: B.pile[B.spot] is B; for i < spot,
    pile[i+1].over is pile[i]; for i > spot, pile[i-1].unders[0] is pile[i];
    the boxes down to B are distinct and so are the boxes from B down; and
    all boxes of the pile are distinct when the primary under of every box
    has that box as its over (true of the boxes [Box.__init__] and
    [Boxer.bx] make, see [bx_unders_point_back]). *)
Theorem traced_pile_integrity fuel h B h' :
  _trace fuel h B = Ok h' →
  ∃ p s,
    (∀ f, pile f h' B = Ok (h', p)) ∧
    (∀ f, spot f h' B = Ok (h', s)) ∧
    p !! s = Some B ∧
    (∀ i x y, i < s → p !! i = Some x → p !! S i = Some y →
              over_of h' y = Some (OBox x)) ∧
    (∀ i x y, s < i → p !! (i - 1) = Some x → p !! i = Some y →
              primary_of h' x = Some y) ∧
    NoDup (take (S s) p) ∧ NoDup (drop s p) ∧
    (unders_point_back h' → NoDup p).
Proof.
  intros H.
  apply _trace_caches in H
    as (p & s & Hp & Hs & Hl & _ & b & ups & downs & Hb & Hu & Hd & -> & ->).
  exists (reverse ups ++ [B] ++ downs), (length ups).
  split; [intros f; by apply pile_cached|].
  split; [intros f; by apply spot_cached|].
  split; [by apply traced_pile_spot|].
  split.
  { intros i x y Hi Hx Hy. rewrite (same_links_over_of h h') by done.
    by eapply traced_pile_over. }
  split.
  { intros i x y Hi Hx Hy. rewrite (same_links_primary_of h h') by done.
    by eapply traced_pile_under. }
  split.
  { eapply over_linked_NoDup. by eapply traced_pile_upper_linked. }
  split.
  { rewrite drop_app_length'; [|by rewrite length_reverse].
    apply (under_path_NoDup h (Some B) (B :: downs)). simpl. eauto. }
  intros Hback. eapply over_linked_NoDup.
  eapply traced_pile_over_linked; [done..|].
  apply (unders_point_back_ext h' h); [by apply same_links_sym|done].
Qed.

End PileIntegrity.

(** ** Forced reentry *)

Section ForcedReentry.

Import Boxing Scenes.

(** C3, as stated, fails: the scan passes A and B, which are common and are
    not far, and stops at index 2 where far is C. *)
Lemma bottom_reentry_counterexample : ¬ bottom_reentry_exits_whole_pile.
Proof. unfold bottom_reentry_exits_whole_pile. vm_compute. discriminate. Qed.

(** C3, amended.  In the pile A over B over C, the box rendered [A<B<C>] is
    the bottom box C, and [exen(C, C)] returns exits = [C], enters = [C],
    rexits = [B, A], renters = [A, B]: the boxes above far are re-exited and
    re-entered.  The result exits = [C, B, A], enters = [A, B, C],
    rexits = renters = [] is that of [exen(A, A)] for the top box A.  Both
    hold on the piles alone, for any three distinct boxes. *)
Theorem forced_reentry_from_far_down :
  returned (pile 10 S3.h S3.C) = Ok [S3.A; S3.B; S3.C] ∧
  returned (trail 10 S3.h S3.C) = Ok "A<B<C>" ∧
  returned (exen 10 S3.h S3.C S3.C)
  = Ok (Some ([S3.C], [S3.C], [S3.B; S3.A], [S3.A; S3.B])) ∧
  returned (exen 10 S3.h S3.A S3.A)
  = Ok (Some ([S3.C; S3.B; S3.A], [S3.A; S3.B; S3.C], [], [])) ∧
  (∀ A B C : ref,
     exen_piles A [A; B; C] [A; B; C]
     = Ok (Some ([C; B; A], [A; B; C], [], []))) ∧
  (∀ A B C : ref,
     C ≠ A → C ≠ B →
     exen_piles C [A; B; C] [A; B; C]
     = Ok (Some ([C], [C], [B; A], [A; B]))).
Proof.
  split; [by vm_compute|]. split; [by vm_compute|].
  split; [by vm_compute|]. split; [by vm_compute|]. split.
  - intros A B C. apply (exen_piles_first A [A; B; C] [A; B; C] 0). split.
    + exists A, A. auto.
    + intros j Hj. lia.
  - intros A B C HA HB.
    apply (exen_piles_first C [A; B; C] [A; B; C] 2). split.
    + exists C, C. auto.
    + intros [|[|j]] Hj; [by exists A|by exists B|lia].
Qed.

Lemma forced_reentry_from_far_down_witness :
  exen_piles 2 [0; 1; 2] [0; 1; 2] = Ok (Some ([2], [2], [1; 0], [0; 1])).
Proof.
  apply (proj2 (proj2 (proj2 (proj2 (proj2 forced_reentry_from_far_down))))
           0 1 2); lia.
Defined.

End ForcedReentry.

(** ** The pile cache *)

Section PileCache.

Import Boxing Scenes.

(** C8, as stated, fails: A is traced as [A], then Y, whose over is A, is
    appended to A.unders; [A.pile] is still [A], while the links now trace
    [A, Y]. *)
Lemma pile_cache_counterexample : ¬ pile_follows_links.
Proof.
  intros Hall.
  assert (is_trace Stale.h2 Stale.A [Stale.A]) as Htr.
  { apply (Hall 10 Stale.h0 Stale.A Stale.h1 [Stale.A] Stale.Y
             Stale.h2 Stale.h2); by vm_compute. }
  destruct Htr as (b & ups & downs & Hb & _ & Hd & Hp).
  vm_compute in Hb. injection Hb as <-.
  destruct downs as [|d downs]; [vm_compute in Hd; discriminate|].
  apply (f_equal length) in Hp. rewrite !length_app, length_reverse in Hp.
  simpl in Hp. lia.
Qed.

Lemma cached_pile_set_over h r p x o h2 :
  cached_pile h r = Some p → set_over h x o = Ok h2 →
  cached_pile h2 r = Some p.
Proof.
  unfold set_over. intros Hp H. apply bind_Ok in H as (b & Hb & H).
  apply deref_Ok in Hb. injection H as <-. unfold cached_pile in *.
  destruct (decide (x = r)) as [->|Hne].
  - rewrite lookup_insert_eq. by rewrite Hb in Hp.
  - by rewrite lookup_insert_ne.
Qed.

Lemma cached_pile_set_unders h r p x us h2 :
  cached_pile h r = Some p → set_unders h x us = Ok h2 →
  cached_pile h2 r = Some p.
Proof.
  unfold set_unders. intros Hp H. apply bind_Ok in H as (b & Hb & H).
  apply deref_Ok in Hb. injection H as <-. unfold cached_pile in *.
  destruct (decide (x = r)) as [->|Hne].
  - rewrite lookup_insert_eq. by rewrite Hb in Hp.
  - by rewrite lookup_insert_ne.
Qed.

(** C8, amended.  Once the pile of a box is traced it stays cached: after
    any assignment to the over of any box, and after any change of the
    unders of any box, [pile] returns the pile cached before, whatever the
    links have become.  The cache is renewed by calling [_trace], as the
    docstring of [pile] says: after [_trace], [pile] returns the trace
    along the links as they are. *)
Theorem pile_cache_outlives_links fuel h r p :
  cached_pile h r = Some p →
  pile fuel h r = Ok (h, p) ∧
  (∀ x o h2, set_over h x o = Ok h2 → pile fuel h2 r = Ok (h2, p)) ∧
  (∀ x us h2, set_unders h x us = Ok h2 → pile fuel h2 r = Ok (h2, p)) ∧
  (∀ h2, _trace fuel h r = Ok h2 →
         ∃ p', pile fuel h2 r = Ok (h2, p') ∧ is_trace h2 r p').
Proof.
  intros Hp. split; [by apply pile_cached|].
  split; [intros x o h2 H; eapply pile_cached, cached_pile_set_over; eauto|].
  split; [intros x us h2 H; eapply pile_cached, cached_pile_set_unders; eauto|].
  intros h2 H. apply _trace_caches in H as (p' & s & Hp' & _ & Hl & Htr & _).
  exists p'. split; [by apply pile_cached|]. by eapply is_trace_ext.
Qed.

Lemma pile_cache_outlives_links_witness :
  pile 10 Stale.h1 Stale.A = Ok (Stale.h1, [Stale.A]) ∧
  (∀ x o h2, set_over Stale.h1 x o = Ok h2 →
             pile 10 h2 Stale.A = Ok (h2, [Stale.A])) ∧
  (∀ x us h2, set_unders Stale.h1 x us = Ok h2 →
              pile 10 h2 Stale.A = Ok (h2, [Stale.A])) ∧
  (∀ h2, _trace 10 Stale.h1 Stale.A = Ok h2 →
         ∃ p', pile 10 h2 Stale.A = Ok (h2, p') ∧ is_trace h2 Stale.A p').
Proof.
  apply (pile_cache_outlives_links 10 Stale.h1 Stale.A [Stale.A]).
  vm_compute. reflexivity.
Defined.

End PileCache.

(** ** The builder: [resolve], [go] and [do] *)

Section Builder.

Import Boxing Scenes.

(** [resolve] gets past a box only when its over is not a name. *)
Lemma resolve_loop_Ok bs items h h' :
  resolve_loop bs items None h = Ok h' →
  same_links h h' ∧
  ∀ nm r, (nm, r) ∈ items → ∃ b, h !! r = Some b ∧ ∀ s, over b ≠ OStr s.
Proof.
  revert h. induction items as [|[nm r] items IH]; intros h H; simpl in H.
  - injection H as <-. split; [done|]. intros nm r Hin. by apply elem_of_nil in Hin.
  - apply bind_Ok in H as (b & Hb & H). apply deref_Ok in Hb.
    apply bind_Ok in H as ([ol h1] & Hover & H).
    assert (ol = None ∧ h1 = h ∧ ∀ s, over b ≠ OStr s) as (-> & -> & Hns).
    { destruct (over b); simpl in Hover; by simplify_eq. }
    apply bind_Ok in H as (b' & Hb' & H). apply deref_Ok in Hb'.
    simplify_eq. apply bind_Ok in H as (ts & _ & H).
    apply IH in H as [Hl Hrest].
    assert (same_links h (<[r := with_tracts b ts]> h)) as Hl1.
    { intros x. destruct (decide (r = x)) as [->|Hne].
      - by rewrite lookup_insert_eq, Hb.
      - by rewrite lookup_insert_ne. }
    split.
    + intros x. destruct (Hl1 x) as [-> ->]. apply Hl.
    + intros nm' r' Hin. apply elem_of_cons in Hin as [[= -> ->]|Hin].
      * eauto.
      * destruct (Hrest _ _ Hin) as (b1 & Hb1 & Hns1).
        destruct (same_links_lookup _ _ r' b1 (same_links_sym _ _ Hl1) Hb1)
          as (b0 & Hb0 & Ho & _).
        exists b0. split; [done|]. intros s. rewrite Ho. apply Hns1.
Qed.

(** [resolve] returns only when no box of [boxes] has a name as its over:
    it resolves none. *)
Lemma resolve_Ok_no_names self h h' :
  resolve self h = Ok h' →
  ∀ nm r, (nm, r) ∈ boxes self → ∃ b, h !! r = Some b ∧ ∀ s, over b ≠ OStr s.
Proof. intros H. by apply resolve_loop_Ok in H as [_ H]. Qed.

(** C5: the code at the inputs where it departs from the specification.  For
    [boxes = {"a": a, "b": b}] with [a.over = "b"], [resolve] does not make
    b the over of a: the subscript [self.boxes[over]] reads the local
    [over] before any assignment and [UnboundLocalError] leaves the call.
    With [a.over = "zz"], the name of no box, the same error leaves the
    call, not [HierError]. *)
Theorem resolve_over_name_unbound :
  resolve Unresolved.boxer Unresolved.h = Raise UnboundLocalError ∧
  resolve Unresolved.boxer Unresolved.h_miss = Raise UnboundLocalError.
Proof. split; by vm_compute. Qed.

(** [do] hands the heap back as it got it. *)
Lemma do_keeps_heap fuel self h m deed h' m' d :
  do fuel self h m deed = Ok (h', m', d) → h' = h.
Proof.
  unfold do. destruct deed as [s|].
  - case_bool_decide; [done|]. by intros [= -> _ _].
  - intros H. apply bind_Ok in H as ([d0 idx] & _ & H). by injection H as -> _ _.
Qed.

(** [go], in contrast, appends its tract to the tracts of the current
    box. *)
Lemma go_appends_tract self h m dst expr h' t :
  go self h m dst expr = Ok (h', t) →
  ∃ cur b, wbox m = Some cur ∧ h !! cur = Some b ∧
           h' = <[cur := with_tracts b (tracts b ++ [t])]> h.
Proof.
  unfold go. intros H. apply bind_Ok in H as (d & _ & H).
  apply bind_Ok in H as ([cur b] & Hcur & H). injection H as <- <-.
  apply bind_Ok in Hcur as (c & Hc & Hcur).
  destruct (wbox m) as [c'|]; [|done]. injection Hc as ->.
  apply bind_Ok in Hcur as (b' & Hb & Hcur). apply deref_Ok in Hb.
  injection Hcur as -> ->. eauto.
Qed.

(** C7: the code at an input where it departs from the specification.  In the
    boxwork R, A, X, Y with current box Y, [do("blink")] returns the str
    ["blink"] and [do()] returns ["act0"]; no act is made, and the enacts
    of Y, empty before, are empty after, as is every other list of acts of
    every box: the heap is the same. *)
Theorem do_appends_no_act :
  wbox S4.works = Some S4.Y ∧
  enacts <$> S4.h !! S4.Y = Some [] ∧
  do 10 S4.boxer S4.h S4.works (Some "blink")
  = Ok (S4.h, S4.works, "blink") ∧
  (∃ m', do 10 S4.boxer S4.h S4.works None = Ok (S4.h, m', "act0")).
Proof.
  split; [by vm_compute|]. split; [by vm_compute|]. split; [by vm_compute|].
  eexists. by vm_compute.
Qed.

End Builder.

(** ** Acts: the nabe of a Goact, and update marks *)

Section GoactNabe.

Import Acting.

Variable ActBase_init : kwargs → outcome ActBase.

Lemma ActBase_init_spec_nabe kwa a n :
  ActBase_init_spec kwa = Ok a → kw_nabe kwa = Some n → ab_nabe a = n.
Proof.
  unfold ActBase_init_spec. destruct (Boxing.Renam_match _); [|done].
  intros [= <-] Hn. simpl. by rewrite Hn.
Qed.

(** The nabe handed in never reaches the base initialiser. *)
Lemma Goact_init_ignores_nabe dst nd kwa n :
  Goact_init ActBase_init dst nd (kwa_update_nabe kwa n)
  = Goact_init ActBase_init dst nd kwa.
Proof. done. Qed.

Lemma Goact_init_checked dst nd kwa g :
  Goact_init ActBase_init dst nd kwa = Ok g →
  ab_nabe (go_base g) = Nabe.godo.
Proof.
  unfold Goact_init. intros H. apply bind_Ok in H as (a & _ & H).
  case_bool_decide as Hn; [done|]. injection H as <-. simpl.
  by destruct (decide (ab_nabe a = Nabe.godo)).
Qed.

Lemma Goact_init_unchecked dst nd kwa :
  (∀ kwa a n, ActBase_init kwa = Ok a → kw_nabe kwa = Some n →
              ab_nabe a = n) →
  Goact_init ActBase_init dst nd kwa
  = (a ← ActBase_init (kwa_update_nabe kwa Nabe.godo);
     Ok {| go_base := a;
           dest := match dst with DNone => DStr "next" | d => d end;
           need := nd |}).
Proof.
  intros Hstore. unfold Goact_init.
  destruct (ActBase_init (kwa_update_nabe kwa Nabe.godo)) as [a| |] eqn:Ha;
    [|done..].
  simpl. rewrite (Hstore _ a Nabe.godo Ha) by done.
  by rewrite bool_decide_eq_false_2 by (intros Hne; by apply Hne).
Qed.

(** C6, as stated, fails: with the base initialiser of the spec, a Goact
    given nabe [endo] is constructed. *)
Lemma Goact_nabe_counterexample :
  ¬ other_nabe_is_refused ActBase_init_spec.
Proof.
  intros Hall.
  specialize (Hall DNone None
    {| kw_name := None; kw_iops := None;
       kw_nabe := Some Nabe.endo |} Nabe.endo).
  vm_compute in Hall. by discriminate Hall.
Qed.

(** C6, amended.  [Goact.__init__] overrides the nabe keyword with [godo]
    before it initialises the base ([kwa.update(nabe=Nabe.godo)]); so, for
    a base initialiser that stores the nabe it is given, construction is
    that of the base with nabe [godo] and the check of the nabe never
    fails; whatever nabe is handed in, the call does the same, and a
    constructed Goact has nabe [godo]. *)
Theorem Goact_nabe_is_overridden dst nd kwa :
  (∀ kwa a n, ActBase_init kwa = Ok a → kw_nabe kwa = Some n →
              ab_nabe a = n) →
  Goact_init ActBase_init dst nd kwa
  = (a ← ActBase_init (kwa_update_nabe kwa Nabe.godo);
     Ok {| go_base := a;
           dest :=
             match dst with DNone => DStr "next" | d => d end;
           need := nd |}) ∧
  (∀ n, Goact_init ActBase_init dst nd (kwa_update_nabe kwa n)
        = Goact_init ActBase_init dst nd kwa) ∧
  (∀ g, Goact_init ActBase_init dst nd kwa = Ok g →
        ab_nabe (go_base g) = Nabe.godo).
Proof.
  intros Hstore. split; [by apply Goact_init_unchecked|].
  split; [intros n; apply Goact_init_ignores_nabe|].
  intros g. apply Goact_init_checked.
Qed.

End GoactNabe.

Section GoactNabeWitness.

Import Acting.

Lemma Goact_nabe_is_overridden_witness :
  let kwa := {| kw_name := Some "go0"; kw_iops := None;
                kw_nabe := Some Nabe.endo |} in
  Goact_init ActBase_init_spec (DStr "far") None kwa
  = (a ← ActBase_init_spec
           (kwa_update_nabe kwa Nabe.godo);
     Ok {| go_base := a; dest := DStr "far";
           need := None |}) ∧
  (∀ n, Goact_init ActBase_init_spec (DStr "far") None
          (kwa_update_nabe kwa n)
        = Goact_init ActBase_init_spec (DStr "far")
            None kwa) ∧
  (∀ g, Goact_init ActBase_init_spec (DStr "far") None
          kwa = Ok g →
        ab_nabe (go_base g) = Nabe.godo).
Proof.
  intros kwa.
  apply (Goact_nabe_is_overridden ActBase_init_spec
           (DStr "far") None kwa).
  exact ActBase_init_spec_nabe.
Defined.

End GoactNabeWitness.

Section UpdateMarks.

Import Acting.

Context {tyme : Type} `{EqDecision tyme}.

Implicit Types (m : gmap string (Bag tyme)) (a : ActBase).

Lemma string_length_app (s1 s2 : string) :
  String.length (s1 +:+ s2) = String.length s1 + String.length s2.
Proof. induction s1 as [|c s1 IH]; simpl; [done|]. by rewrite IH. Qed.

(** The key of a mark is not the key it marks: it is longer. *)
Lemma update_keys_ne boxer box key : update_keys boxer box key ≠ key.
Proof.
  intros Heq. apply (f_equal String.length) in Heq.
  unfold update_keys, tokey in Heq. simpl in Heq.
  rewrite !string_length_app in Heq. simpl in Heq. lia.
Qed.

Lemma iop_Ok a k v : dict_get (iops a) k = Some v → iop a k = Ok v.
Proof. unfold iop. by intros ->. Qed.

(** C9.  For an UpdateMark whose iops give [_boxer] = B, [_box] = X and
    [_key] = K, in a mine that holds the bag at K and the bag of the mark
    (as it does once the UpdateMark is constructed), [act()] returns and
    sets the value of the bag at ("", "boxer", B, "box", X, "update", K)
    to the [_tyme] of the bag at K, which it leaves as it is; so right
    after the act the mark equals that [_tyme] and [updated] is false for
    K. *)
Theorem UpdateMark_act_stores_tyme (now : option tyme) a m B X K :
  dict_get (iops a) "_boxer" = Some B →
  dict_get (iops a) "_box" = Some X →
  dict_get (iops a) "_key" = Some K →
  is_Some (m !! K) →
  is_Some (m !! update_keys B X K) →
  ∃ m' bag mark,
    UpdateMark_act now a m = Ok m' ∧
    m !! K = Some bag ∧
    m' !! update_keys B X K = Some mark ∧
    bag_value mark = of_tyme (_tyme bag) ∧
    m' !! K = Some bag ∧
    updated m' B X K = Ok false.
Proof.
  intros HB HX HK [bag Hbag] [old Hold].
  exists (<[update_keys B X K :=
             {| bag_value := of_tyme (_tyme bag); _tyme := now |}]> m),
         bag, {| bag_value := of_tyme (_tyme bag); _tyme := now |}.
  assert (<[update_keys B X K :=
             {| bag_value := of_tyme (_tyme bag); _tyme := now |}]> m !! K
          = Some bag) as HK'.
  { rewrite lookup_insert_ne by apply update_keys_ne. done. }
  split.
  { unfold UpdateMark_act. rewrite (iop_Ok _ _ _ HB), (iop_Ok _ _ _ HX),
      (iop_Ok _ _ _ HK). simpl. unfold mine_get. rewrite Hbag. simpl.
    unfold mine_set_value, mine_get. by rewrite Hold. }
  split; [done|]. split; [by rewrite lookup_insert_eq|].
  split; [done|]. split; [done|].
  unfold updated, mine_get. rewrite HK'. simpl.
  rewrite lookup_insert_eq. simpl. by rewrite bool_decide_eq_true_2.
Qed.

(** Construction leaves a mine that holds both bags. *)
Lemma UpdateMark_init_bags (init : kwargs → outcome ActBase) m kwa a m1 :
  UpdateMark_init init m kwa = Ok (a, m1) →
  ∃ B X K,
    dict_get (iops a) "_boxer" = Some B ∧
    dict_get (iops a) "_box" = Some X ∧
    dict_get (iops a) "_key" = Some K ∧
    is_Some (m1 !! K) ∧ is_Some (m1 !! update_keys B X K).
Proof.
  unfold UpdateMark_init. intros H.
  apply bind_Ok in H as (a0 & Hmark & H).
  apply bind_Ok in H as (B & HB & H).
  apply bind_Ok in H as (X & HX & H).
  apply bind_Ok in H as (K & HK & H).
  unfold iop in HB, HX, HK.
  destruct (dict_get (iops a0) "_boxer") as [B'|] eqn:EB; [|done].
  destruct (dict_get (iops a0) "_box") as [X'|] eqn:EX; [|done].
  destruct (dict_get (iops a0) "_key") as [K'|] eqn:EK; [|done].
  simplify_eq.
  assert (is_Some (m !! K)) as HmK.
  { unfold Mark_init in Hmark. apply bind_Ok in Hmark as (a1 & _ & Hmark).
    apply bind_Ok in Hmark as (? & _ & Hmark).
    apply bind_Ok in Hmark as (? & _ & Hmark).
    apply bind_Ok in Hmark as (K1 & HK1 & Hmark).
    destruct (m !! K1) eqn:E1; [|done]. injection Hmark as ->.
    unfold iop_required in HK1. rewrite EK in HK1. injection HK1 as ->.
    by rewrite E1. }
  exists B, X, K.
  destruct (m !! update_keys B X K) eqn:Ek; injection H as <- <-.
  - split; [done|]. split; [done|]. split; [done|]. split; [done|].
    by rewrite Ek.
  - split; [done|]. split; [done|]. split; [done|]. split.
    + by rewrite lookup_insert_ne by apply update_keys_ne.
    + by rewrite lookup_insert_eq.
Qed.

End UpdateMarks.

Section UpdateMarksWitness.

Import Acting.

Lemma UpdateMark_act_stores_tyme_witness :
  ∃ m' bag mark,
    UpdateMark_act (Some (Q2Qc 1)) S6.act0 S6.mine1 = Ok m' ∧
    S6.mine1 !! "flag" = Some bag ∧
    m' !! update_keys "boxer" "box0" "flag" = Some mark ∧
    bag_value mark = of_tyme (_tyme bag) ∧
    m' !! "flag" = Some bag ∧
    updated m' "boxer" "box0" "flag" = Ok false.
Proof.
  apply (UpdateMark_act_stores_tyme (Some (Q2Qc 1)) S6.act0 S6.mine1
           "boxer" "box0" "flag").
  - vm_compute. reflexivity.
  - vm_compute. reflexivity.
  - vm_compute. reflexivity.
  - vm_compute. eexists. reflexivity.
  - vm_compute. eexists. reflexivity.
Defined.

(** Scenario S6: before the bag is written the mark is [None], as is the
    bag's [_tyme]; once the bag is written at tyme 1/2 and the mark still
    holds [None], [updated] is true; after the act it is false. *)
Example UpdateMark_scenario :
  bag_value <$> S6.mine1 !! update_keys "boxer" "box0" "flag" = Some VNone ∧
  updated S6.mine1 "boxer" "box0" "flag" = Ok true ∧
  (m ← UpdateMark_act (Some (Q2Qc 1)) S6.act0 S6.mine1;
   updated m "boxer" "box0" "flag") = Ok false.
Proof. split; [by vm_compute|]. split; by vm_compute. Qed.

End UpdateMarksWitness.

(** ** The partition made by [exen], and its totality *)

Section ExenPartition.

Import Boxing Scenes.

Implicit Types (h : heap) (N F : list ref) (near far : ref).

(** What [pile] returns is cached afterwards, and is the cache of before or
    a fresh trace; the links are untouched. *)
Lemma pile_inv fuel h r h' p :
  pile fuel h r = Ok (h', p) →
  cached_pile h' r = Some p ∧ same_links h h' ∧
  (∀ r', r' ≠ r → h' !! r' = h !! r') ∧
  (cached_pile h r = Some p ∧ h' = h ∨
   cached_pile h r = None ∧ is_trace h r p).
Proof.
  unfold pile. intros H. apply bind_Ok in H as (b & Hb & H).
  apply deref_Ok in Hb. destruct (_pile b) as [p0|] eqn:Hp0.
  - injection H as <- <-. unfold cached_pile. rewrite Hb. simpl.
    split; [done|]. split; [done|]. split; [done|]. by left.
  - apply bind_Ok in H as (h1 & Htr & H).
    apply bind_Ok in H as (b1 & Hb1 & H). apply deref_Ok in Hb1.
    destruct (_pile b1) as [p1|] eqn:Hp1; [|done]. injection H as <- <-.
    pose proof Htr as Hinv.
    apply _trace_caches in Htr as (p2 & s & Hc & _ & Hl & Ht & _).
    assert (p2 = p1) as ->.
    { unfold cached_pile in Hc. rewrite Hb1 in Hc. simpl in Hc. congruence. }
    split; [done|]. split; [done|]. split.
    + intros r' Hne. apply _trace_inv in Hinv as (? & ? & ? & ? & _ & _ & _ & ->).
      by rewrite lookup_insert_ne.
    + right. split; [|done]. unfold cached_pile. by rewrite Hb.
Qed.

Lemma split_at_sets far N F i :
  first_uncommon far N F i →
  take i F = take i N.
Proof.
  intros [Hu Hc]. apply list_eq. intros j.
  destruct (decide (j < i)) as [Hlt|Hge].
  - rewrite !lookup_take_lt by done.
    destruct (Hc j Hlt) as (n & -> & -> & _). done.
  - rewrite !lookup_take_ge by lia. done.
Qed.

(** C2, amended.  When [exen(near, far)] returns (exits, enters, rexits,
    renters), with N = near.pile and F = far.pile: set(rexits) =
    set(renters); set(exits) ∪ set(rexits) = set(N); set(enters) ∪
    set(renters) = set(F); and, unless far is in N, set(exits) ∩
    set(enters) is empty, for piles in which every box has the box before
    it as its over and the top has none (as the traces are when the primary
    under of every box has that box as its over, see
    [traced_pile_over_linked]). *)
Theorem exen_partition fuel h near far h' exits enters rexits renters :
  exen fuel h near far = Ok (h', Some (exits, enters, rexits, renters)) →
  ∃ N F,
    cached_pile h' near = Some N ∧ cached_pile h' far = Some F ∧
    list_to_set rexits =@{gset ref} list_to_set renters ∧
    list_to_set exits ∪ list_to_set rexits =@{gset ref} list_to_set N ∧
    list_to_set enters ∪ list_to_set renters =@{gset ref} list_to_set F ∧
    (over_linked h' N → over_linked h' F → far ∉ N →
     list_to_set exits ∩ list_to_set enters =@{gset ref} ∅).
Proof.
  intros H. apply exen_inv in H as (h1 & N & F & HN & HF & Hq).
  apply exen_piles_Some in Hq as (i & Hi & Hq). unfold split_at in Hq.
  injection Hq as -> -> -> ->.
  apply pile_inv in HN as (HcN & _ & _ & _).
  apply pile_inv in HF as (HcF & _ & Hother & HF).
  exists N, F. split.
  { destruct (decide (near = far)) as [->|Hne]; [|].
    - destruct HF as [[HF ->]|[HF _]]; [done|]. congruence.
    - unfold cached_pile in *. by rewrite Hother. }
  split; [done|]. pose proof (split_at_sets far N F i Hi) as Hpre.
  split.
  { rewrite Hpre. apply set_eq. intros x.
    rewrite !elem_of_list_to_set, elem_of_reverse. done. }
  split.
  { apply set_eq. intros x.
    rewrite elem_of_union, !elem_of_list_to_set, !elem_of_reverse.
    rewrite <-(take_drop i N) at 3. rewrite elem_of_app. tauto. }
  split.
  { apply set_eq. intros x.
    rewrite elem_of_union, !elem_of_list_to_set.
    rewrite <-(take_drop i F) at 3. rewrite elem_of_app. tauto. }
  intros HNl HFl Hfar.
  apply set_eq. intros x. rewrite elem_of_intersection, !elem_of_list_to_set.
  rewrite elem_of_reverse, elem_of_empty. split; [|done].
  intros [[a Ha]%list_elem_of_lookup [b Hb]%list_elem_of_lookup].
  rewrite lookup_drop in Ha, Hb.
  destruct (over_linked_common h' N F _ _ x HNl HFl Ha Hb) as [_ Hsame].
  destruct Hi as [(n & f & Hn & Hf & [->|Hne]) _].
  - apply Hfar. apply list_elem_of_lookup. eauto.
  - apply Hne. specialize (Hsame i). rewrite Hn, Hf in Hsame.
    assert (Some n = Some f) as [= ->] by (apply Hsame; lia). done.
Qed.

(** The scan stops within both piles when they are traces along links in
    which every box with an over is among the unders of that over. *)
Lemma scan_finds_index h near far N F :
  is_trace h near N → is_trace h far F → listed_in_over h →
  ∃ i, first_uncommon far N F i.
Proof.
  intros (bn & un & dn & Hbn & Hun & Hdn & HNeq)
         (bf & uf & df & Hbf & Huf & Hdf & HFeq) Hlisted.
  destruct (exen_piles_defined far N F) as [[q|] Hr].
  { apply exen_piles_Some in Hr as (i & Hi & _). eauto. }
  exfalso. pose proof (exen_piles_None _ _ _ Hr) as Hcommon.
  assert (F !! length uf = Some far) as Hfar.
  { rewrite HFeq. apply traced_pile_spot. }
  assert (length N = length un + 1 + length dn) as HlenN.
  { rewrite HNeq. apply traced_pile_length. }
  assert (length F = length uf + 1 + length df) as HlenF.
  { rewrite HFeq. apply traced_pile_length. }
  destruct (decide (length uf < length N `min` length F)) as [Hlt|Hge].
  { destruct (Hcommon _ Hlt) as (n & _ & Hn & Hne). congruence. }
  assert (length N `min` length F = length N) as Hmin by lia.
  rewrite Hmin in Hcommon.
  destruct (Hcommon (length N - 1)) as (z & HzN & HzF & _); [lia|].
  destruct (lookup_lt_is_Some_2 F (length N)) as [y Hy]; [lia|].
  assert (over_of h y = Some (OBox z)) as Hover.
  { rewrite HFeq in HzF, Hy.
    eapply (traced_pile_over h far bf uf df Hbf Huf (length N - 1));
      [lia|done|].
    by replace (S (length N - 1)) with (length N) by lia. }
  destruct (Hlisted y z Hover) as (bz & Hbz & Hin).
  assert (last N = Some z) as Hlast.
  { rewrite last_lookup. by replace (pred (length N)) with (length N - 1) by lia. }
  rewrite HNeq in Hlast.
  destruct (traced_pile_bottom h near bn un dn Hbn Hdn z Hlast)
    as (bz' & Hbz' & Hnil).
  simplify_eq. rewrite Hnil in Hin. by apply elem_of_nil in Hin.
Qed.

(** C10, amended.  For boxes near and far whose piles N and F are traced,
    and are the traces of near and far along links in which every box with
    an over is among the unders of that over (as [Boxer.bx] links them,
    and as [Box.__init__] alone does not), the scan of [exen] finds the
    first index i with [far is N[i]] or [F[i] is not N[i]] below
    min(len(N), len(F)): the call returns the four lists split at i and
    never falls through the loop.  When the tops of the piles differ the
    index is 0. *)
Theorem exen_returns_quadruple fuel h near far N F :
  cached_pile h near = Some N → cached_pile h far = Some F →
  is_trace h near N → is_trace h far F → listed_in_over h →
  (∃ i, i < length N `min` length F ∧ first_uncommon far N F i ∧
        exen fuel h near far = Ok (h, Some (split_at N F i))) ∧
  (∀ n f, N !! 0 = Some n → F !! 0 = Some f → f ≠ n →
          exen fuel h near far = Ok (h, Some (split_at N F 0))).
Proof.
  intros HcN HcF HN HF Hlisted.
  assert (∀ i, first_uncommon far N F i →
               exen fuel h near far = Ok (h, Some (split_at N F i))) as Hex.
  { intros i Hi.
    rewrite (exen_unfold fuel h near far h h N F)
      by (by apply pile_cached).
    by rewrite (exen_piles_first _ _ _ _ Hi). }
  split.
  - destruct (scan_finds_index h near far N F HN HF Hlisted) as [i Hi].
    exists i. split; [apply (uncommon_at_lt far), Hi|]. split; [done|].
    by apply Hex.
  - intros n f Hn Hf Hne. apply Hex. split.
    + exists n, f. auto.
    + intros j Hj. lia.
Qed.

End ExenPartition.

(** ** The links that [Boxer.bx] makes *)

Section BxLinks.

Import Boxing Scenes.

Implicit Types (h : heap) (self : Boxer) (m : WorkDom).

Lemma dict_get_elem {V} (d : dict V) k v :
  dict_get d k = Some v → (k, v) ∈ d.
Proof.
  induction d as [|[k' v'] d IH]; simpl; [done|].
  case_bool_decide as Hk.
  - intros [= ->]. subst. apply list_elem_of_here.
  - intros H. apply list_elem_of_further. auto.
Qed.

Lemma dict_set_elem {V} (d : dict V) k0 v0 k v :
  (k, v) ∈ dict_set d k0 v0 → (k, v) ∈ d ∨ (k = k0 ∧ v = v0).
Proof.
  induction d as [|[k' v'] d IH]; simpl.
  - intros [[= -> ->]|H]%elem_of_cons; [by right|by apply elem_of_nil in H].
  - case_bool_decide as Hk.
    + intros [[= -> ->]|H]%elem_of_cons; [by right|].
      left. by apply list_elem_of_further.
    + intros [[= -> ->]|H]%elem_of_cons; [left; apply list_elem_of_here|].
      destruct (IH H) as [?|?]; [left; by apply list_elem_of_further|by right].
Qed.

Lemma Box_init_Ok nm ov b :
  Box_init nm ov = Ok b → over b = ov ∧ unders b = [].
Proof. unfold Box_init. destruct (Renam_match nm); [|done]. by intros [= <-]. Qed.

(** A new box [new] with over [ov] is put in the heap and appended to the
    unders of its over: the links still form trees. *)
Lemma tree_links_new_box h new b o bo :
  tree_links h → h !! new = None →
  unders b = [] → over b = OBox o → h !! o = Some bo →
  tree_links (<[o := with_unders bo (unders bo ++ [new])]> (<[new := b]> h)).
Proof.
  intros [Hback Hlisted] Hnew Hub Hob Ho.
  assert (o ≠ new) as Hne by (intros ->; congruence).
  split.
  - intros x y. unfold primary_of, over_of.
    destruct (decide (x = o)) as [->|Hxo].
    + rewrite lookup_insert_eq. simpl. unfold primary. simpl.
      destruct (unders bo) as [|u us] eqn:Hus; simpl; intros [= <-].
      * rewrite lookup_insert_ne, lookup_insert_eq by done. simpl. by rewrite Hob.
      * assert (over_of h u = Some (OBox o)) as Hu.
        { apply Hback. unfold primary_of, primary. rewrite Ho. simpl.
          by rewrite Hus. }
        unfold over_of in Hu. destruct (decide (u = o)) as [->|Huo].
        { rewrite lookup_insert_eq. simpl. by rewrite Ho in Hu. }
        rewrite lookup_insert_ne by done.
        destruct (decide (u = new)) as [->|Hun]; [by rewrite Hnew in Hu|].
        by rewrite lookup_insert_ne.
    + rewrite lookup_insert_ne by done.
      destruct (decide (x = new)) as [->|Hxn].
      { rewrite lookup_insert_eq. simpl. unfold primary. by rewrite Hub. }
      rewrite lookup_insert_ne by done. intros Hp.
      assert (over_of h y = Some (OBox x)) as Hy by (by apply Hback).
      unfold over_of in Hy. destruct (decide (y = o)) as [->|Hyo].
      { rewrite lookup_insert_eq. simpl. by rewrite Ho in Hy. }
      rewrite lookup_insert_ne by done.
      destruct (decide (y = new)) as [->|Hyn]; [by rewrite Hnew in Hy|].
      by rewrite lookup_insert_ne.
  - intros y x. unfold over_of. destruct (decide (y = o)) as [->|Hyo].
    + rewrite lookup_insert_eq. simpl. intros Hy.
      assert (over_of h o = Some (OBox x)) as Hy'.
      { unfold over_of. by rewrite Ho. }
      destruct (Hlisted o x Hy') as (bx & Hbx & Hin).
      destruct (decide (x = o)) as [->|Hxo].
      * rewrite lookup_insert_eq. eexists. split; [done|]. simpl.
        rewrite Ho in Hbx. injection Hbx as <-. apply elem_of_app. by left.
      * rewrite lookup_insert_ne by done.
        assert (x ≠ new) by (intros ->; congruence).
        rewrite lookup_insert_ne by done. eauto.
    + rewrite lookup_insert_ne by done.
      destruct (decide (y = new)) as [->|Hyn].
      * rewrite lookup_insert_eq. simpl. rewrite Hob. intros [= <-].
        rewrite lookup_insert_eq. eexists. split; [done|]. simpl.
        apply elem_of_app. right. apply list_elem_of_singleton. done.
      * rewrite lookup_insert_ne by done. intros Hy.
        destruct (Hlisted y x Hy) as (bx & Hbx & Hin).
        destruct (decide (x = o)) as [->|Hxo].
        -- rewrite lookup_insert_eq. eexists. split; [done|]. simpl.
           rewrite Ho in Hbx. injection Hbx as <-. apply elem_of_app. by left.
        -- rewrite lookup_insert_ne by done.
           assert (x ≠ new) by (intros ->; congruence).
           rewrite lookup_insert_ne by done. eauto.
Qed.

(** A new box without over is put in the heap. *)
Lemma tree_links_new_top h new b :
  tree_links h → h !! new = None →
  unders b = [] → over b = ONone →
  tree_links (<[new := b]> h).
Proof.
  intros [Hback Hlisted] Hnew Hub Hob. split.
  - intros x y. unfold primary_of, over_of.
    destruct (decide (x = new)) as [->|Hxn].
    { rewrite lookup_insert_eq. simpl. unfold primary. by rewrite Hub. }
    rewrite lookup_insert_ne by done. intros Hp.
    assert (over_of h y = Some (OBox x)) as Hy by (by apply Hback).
    unfold over_of in Hy.
    destruct (decide (y = new)) as [->|Hyn]; [by rewrite Hnew in Hy|].
    by rewrite lookup_insert_ne.
  - intros y x. unfold over_of.
    destruct (decide (y = new)) as [->|Hyn].
    { rewrite lookup_insert_eq. simpl. by rewrite Hob. }
    rewrite lookup_insert_ne by done. intros Hy.
    destruct (Hlisted y x Hy) as (bx & Hbx & Hin).
    assert (x ≠ new) by (intros ->; congruence).
    rewrite lookup_insert_ne by done. eauto.
Qed.

(** A box fresh from [Box.__init__] has no unders: placed in the heap, it
    leaves the primary unders pointing back, whatever its over is. *)
Lemma Box_init_unders_point_back h new nm ov b :
  Box_init nm ov = Ok b → h !! new = None →
  unders_point_back h → unders_point_back (<[new := b]> h).
Proof.
  intros [_ Hub]%Box_init_Ok Hnew Hback x y. unfold primary_of, over_of.
  destruct (decide (x = new)) as [->|Hxn].
  { rewrite lookup_insert_eq. simpl. unfold primary. by rewrite Hub. }
  rewrite lookup_insert_ne by done. intros Hp.
  assert (over_of h y = Some (OBox x)) as Hy by (by apply Hback).
  unfold over_of in Hy.
  destruct (decide (y = new)) as [->|Hyn]; [by rewrite Hnew in Hy|].
  by rewrite lookup_insert_ne.
Qed.

(** Links that are the same form trees alike. *)
Lemma tree_links_ext h h' : same_links h h' → tree_links h → tree_links h'.
Proof.
  intros Hl [Hback Hlisted]. split; [by eapply unders_point_back_ext|].
  intros y x Hy. rewrite (same_links_over_of h h') in Hy by done.
  destruct (Hlisted y x Hy) as (bx & Hbx & Hin).
  destruct (same_links_lookup h h' x bx Hl Hbx) as (bx' & Hbx' & _ & Hu).
  exists bx'. split; [done|]. by rewrite Hu.
Qed.

Lemma same_links_with_next h p bp n :
  h !! p = Some bp → same_links h (<[p := with_next bp n]> h).
Proof.
  intros Hb r. destruct (decide (p = r)) as [->|Hne].
  - by rewrite lookup_insert_eq, Hb.
  - by rewrite lookup_insert_ne.
Qed.

Lemma lookup_insert_is_Some' h (k r : ref) (b : Box) :
  is_Some (h !! r) → is_Some (<[k := b]> h !! r).
Proof. intros Hr. apply lookup_insert_is_Some. destruct (decide (k = r)); auto. Qed.

(** [bx] keeps a boxwork in order: the new box is under its over and among
    the unders of that over, and nothing else changes in the links. *)
Lemma bx_boxwork_ok fuel self h m nm ov self' h' m' new :
  boxwork_ok (self, h, m) →
  bx fuel self h m nm ov = Ok (self', h', m', new) →
  boxwork_ok (self', h', m').
Proof.
  intros (Htree & Hboxes & Hwover & Hwbox) H. unfold bx in H.
  apply bind_Ok in H as ([nm' idx] & _ & H).
  destruct (dict_has (boxes self) nm'); [done|].
  apply bind_Ok in H as ([ov' bs] & Hov & H).
  apply bind_Ok in H as (b & Hb & H). apply Box_init_Ok in Hb as [Hob Hub].
  apply bind_Ok in H as (h1 & Hh1 & H).
  apply bind_Ok in H as (h2 & Hh2 & H).
  injection H as <- <- <- <-.
  set (new := fresh (dom h)) in *.
  assert (h !! new = None) as Hnew.
  { apply not_elem_of_dom. apply is_fresh. }
  assert ((∀ o, ov' = Some o → is_Some (h !! o)) ∧
          (∀ k r, (k, r) ∈ bs → is_Some (h !! r))) as [Hov' Hbs].
  { destruct ov as [|r|s]; simpl in Hov.
    - injection Hov as <- <-. split; [done|]. apply Hboxes.
    - apply bind_Ok in Hov as (br & Hbr & Hov). apply deref_Ok in Hbr.
      destruct (dict_has (boxes self) (name br)); injection Hov as <- <-.
      + split; [by intros o [= <-]|apply Hboxes].
      + split; [by intros o [= <-]|].
        intros k r' [Hin|[_ ->]]%dict_set_elem; [by eapply Hboxes|done].
    - case_bool_decide.
      + injection Hov as <- <-. split; [apply Hwover|apply Hboxes].
      + destruct (dict_get (boxes self) s) as [r|] eqn:Hget; [|done].
        injection Hov as <- <-. split; [|apply Hboxes].
        intros o [= <-]. eapply Hboxes. by apply dict_get_elem. }
  assert (tree_links h1 ∧ ∀ r, is_Some (h !! r) ∨ r = new → is_Some (h1 !! r))
    as [Htree1 Hdom1].
  { destruct ov' as [o|]; simpl in Hh1.
    - apply bind_Ok in Hh1 as (bo & Hbo & Hh1). apply deref_Ok in Hbo.
      injection Hh1 as <-.
      destruct (Hov' o eq_refl) as [bo' Hbo'].
      assert (o ≠ new) as Hne by (intros ->; congruence).
      rewrite lookup_insert_ne in Hbo by done.
      split; [by apply tree_links_new_box|].
      intros r [Hr| ->].
      + by do 2 apply lookup_insert_is_Some'.
      + apply lookup_insert_is_Some'. by rewrite lookup_insert_eq.
    - injection Hh1 as <-. split; [by apply tree_links_new_top|].
      intros r [Hr| ->]; [by apply lookup_insert_is_Some'|].
      by rewrite lookup_insert_eq. }
  assert (tree_links h2 ∧ ∀ r, is_Some (h1 !! r) → is_Some (h2 !! r))
    as [Htree2 Hdom2].
  { destruct (wbox m) as [p|]; simpl in Hh2.
    - apply bind_Ok in Hh2 as (bp & Hbp & Hh2). apply deref_Ok in Hbp.
      injection Hh2 as <-. split.
      + eapply tree_links_ext; [by apply same_links_with_next|done].
      + intros r. apply lookup_insert_is_Some'.
    - by injection Hh2 as <-. }
  split; [done|]. simpl. split; [|split].
  - intros k r [Hin|[_ ->]]%dict_set_elem; apply Hdom2, Hdom1; eauto.
  - intros r Hr. apply Hdom2, Hdom1. left. by apply Hov'.
  - intros r [= <-]. apply Hdom2, Hdom1. by right.
Qed.

Lemma build_boxwork_ok calls st st' :
  boxwork_ok st → build calls st = Ok st' → boxwork_ok st'.
Proof.
  revert st. induction calls as [|[nm ov] calls IH]; intros st Hok H.
  - by injection H as <-.
  - destruct st as [[self h] m]. simpl in H.
    apply bind_Ok in H as ([[[self1 h1] m1] new] & Hbx & H).
    eapply IH; [|done]. by eapply bx_boxwork_ok.
Qed.

Lemma boxwork_ok_start : boxwork_ok (boxer0, ∅, works0).
Proof.
  split; [|split; [|split]].
  - split.
    + intros x y. unfold primary_of. by rewrite lookup_empty.
    + intros y x. unfold over_of. by rewrite lookup_empty.
  - intros nm r Hin. by apply elem_of_nil in Hin.
  - done.
  - done.
Qed.

(** What [Boxer.bx] builds from nothing has links that form trees: in
    particular the primary under of every box has that box as its over. *)
Lemma bx_unders_point_back calls self h m :
  build calls (boxer0, ∅, works0) = Ok (self, h, m) →
  unders_point_back h ∧ listed_in_over h.
Proof.
  intros H. by destruct (build_boxwork_ok _ _ _ boxwork_ok_start H) as [? _].
Qed.

End BxLinks.

Section ExenTotal.

Import Boxing Scenes.

(** After [exen] on boxes not traced before, both piles are cached and are
    the traces of the boxes. *)
Lemma exen_fresh_traces fuel h near far h' r :
  exen fuel h near far = Ok (h', r) →
  cached_pile h near = None → cached_pile h far = None →
  same_links h h' ∧
  ∃ N F, cached_pile h' near = Some N ∧ cached_pile h' far = Some F ∧
         is_trace h' near N ∧ is_trace h' far F.
Proof.
  intros H HnN HnF. apply exen_inv in H as (h1 & N & F & HN & HF & _).
  apply pile_inv in HN as (HcN & Hl1 & Hoth1 & [[HN _]|[_ HtN]]);
    [congruence|].
  apply pile_inv in HF as (HcF & Hl2 & Hoth2 & HF).
  assert (same_links h h') as Hl.
  { intros x. destruct (Hl1 x) as [-> ->]. apply Hl2. }
  split; [done|]. exists N, F.
  destruct (decide (far = near)) as [->|Hne].
  - destruct HF as [[HF ->]|[HF _]]; [|congruence].
    assert (F = N) as -> by congruence.
    pose proof (is_trace_ext h h1 near N Hl1 HtN) as HtN1.
    done.
  - destruct HF as [[HF _]|[_ HtF]].
    { unfold cached_pile in HF, HnF. rewrite Hoth1 in HF by done. congruence. }
    split; [unfold cached_pile in *; by rewrite Hoth2|]. split; [done|].
    split; [exact (is_trace_ext h h' near N Hl HtN)|].
    exact (is_trace_ext h1 h' far F Hl2 HtF).
Qed.

(** The boxwork of scenario S4 and what [exen(X, Y)] leaves of it. *)
Lemma S4_made : S4.made = Ok (S4.boxer, S4.h, S4.works).
Proof. by vm_compute. Qed.

Lemma S4_exen :
  exen 10 S4.h S4.X S4.Y
  = Ok (heap_after (exen 10 S4.h S4.X S4.Y),
        Some ([S4.X], [S4.Y], [S4.A; S4.R], [S4.R; S4.A])).
Proof. by vm_compute. Qed.

Lemma S4_after_exen :
  let h := heap_after (exen 10 S4.h S4.X S4.Y) in
  tree_links h ∧
  cached_pile h S4.X = Some [S4.R; S4.A; S4.X] ∧
  cached_pile h S4.Y = Some [S4.R; S4.A; S4.Y] ∧
  is_trace h S4.X [S4.R; S4.A; S4.X] ∧ is_trace h S4.Y [S4.R; S4.A; S4.Y].
Proof.
  intros h.
  destruct (exen_fresh_traces _ _ _ _ _ _ S4_exen)
    as (Hl & N & F & HN & HF & HtN & HtF); [by vm_compute..|].
  assert (N = [S4.R; S4.A; S4.X]) as ->
    by (vm_compute in HN; by injection HN as <-).
  assert (F = [S4.R; S4.A; S4.Y]) as ->
    by (vm_compute in HF; by injection HF as <-).
  split; [|exact (conj HN (conj HF (conj HtN HtF)))].
  apply (tree_links_ext S4.h h Hl).
  exact (bx_unders_point_back _ _ _ _ S4_made).
Qed.

Lemma exen_partition_witness :
  ∃ N F,
    cached_pile (heap_after (exen 10 S4.h S4.X S4.Y)) S4.X = Some N ∧
    cached_pile (heap_after (exen 10 S4.h S4.X S4.Y)) S4.Y = Some F ∧
    list_to_set [S4.A; S4.R] =@{gset ref} list_to_set [S4.R; S4.A] ∧
    list_to_set [S4.X] ∪ list_to_set [S4.A; S4.R]
      =@{gset ref} list_to_set N ∧
    list_to_set [S4.Y] ∪ list_to_set [S4.R; S4.A]
      =@{gset ref} list_to_set F ∧
    list_to_set [S4.X] ∩ list_to_set [S4.Y] =@{gset ref} ∅.
Proof.
  destruct (exen_partition 10 S4.h S4.X S4.Y _ _ _ _ _ S4_exen)
    as (N & F & HN & HF & H1 & H2 & H3 & H4).
  destruct S4_after_exen as ([Hback _] & HN' & HF' & HtN & HtF).
  assert (N = [S4.R; S4.A; S4.X]) as -> by congruence.
  assert (F = [S4.R; S4.A; S4.Y]) as -> by congruence.
  exists [S4.R; S4.A; S4.X], [S4.R; S4.A; S4.Y].
  split; [done|]. split; [done|]. split; [done|]. split; [done|].
  split; [done|]. apply H4.
  - by apply (is_trace_over_linked _ S4.X).
  - by apply (is_trace_over_linked _ S4.Y).
  - intros Hin. vm_compute in Hin.
    repeat (apply elem_of_cons in Hin as [Hin|Hin]; [discriminate|]).
    by apply elem_of_nil in Hin.
Defined.

Lemma traced_pile_integrity_witness :
  ∃ p s,
    (∀ f, pile f (heap_after (pile 10 S4.h S4.A)) S4.A
          = Ok (heap_after (pile 10 S4.h S4.A), p)) ∧
    (∀ f, spot f (heap_after (pile 10 S4.h S4.A)) S4.A
          = Ok (heap_after (pile 10 S4.h S4.A), s)) ∧
    p !! s = Some S4.A ∧
    (∀ i x y, i < s → p !! i = Some x → p !! S i = Some y →
              over_of (heap_after (pile 10 S4.h S4.A)) y = Some (OBox x)) ∧
    (∀ i x y, s < i → p !! (i - 1) = Some x → p !! i = Some y →
              primary_of (heap_after (pile 10 S4.h S4.A)) x = Some y) ∧
    NoDup (take (S s) p) ∧ NoDup (drop s p) ∧ NoDup p.
Proof.
  assert (_trace 10 S4.h S4.A = Ok (heap_after (pile 10 S4.h S4.A))) as Htr
    by (by vm_compute).
  destruct (traced_pile_integrity 10 S4.h S4.A _ Htr)
    as (p & s & H1 & H2 & H3 & H4 & H5 & H6 & H7 & H8).
  exists p, s. repeat (split; [done|]). apply H8.
  apply _trace_caches in Htr as (_ & _ & _ & _ & Hl & _).
  apply (unders_point_back_ext S4.h _ Hl).
  exact (proj1 (bx_unders_point_back _ _ _ _ S4_made)).
Defined.

Lemma exen_returns_quadruple_witness :
  let h := heap_after (exen 10 S4.h S4.X S4.Y) in
  let N := [S4.R; S4.A; S4.X] in
  let F := [S4.R; S4.A; S4.Y] in
  (∃ i, i < length N `min` length F ∧ first_uncommon S4.Y N F i ∧
        exen 10 h S4.X S4.Y = Ok (h, Some (split_at N F i))) ∧
  (∀ n f, N !! 0 = Some n → F !! 0 = Some f → f ≠ n →
          exen 10 h S4.X S4.Y = Ok (h, Some (split_at N F 0))).
Proof.
  intros h N F.
  destruct S4_after_exen as ([_ Hlisted] & HN & HF & HtN & HtF).
  by apply (exen_returns_quadruple 10 h S4.X S4.Y N F).
Defined.

(** C2, as stated, fails: in the boxwork R over A and B, A over X, built
    by [bx], with X appended by hand to the unders of B, the piles of A and
    B are [R, A, X] and [R, B, X]; [exen(A, B)] returns exits = [X, A],
    enters = [B, X], rexits = [R], renters = [R]: B is not in the pile of
    A, and X is both exited and entered. *)
Lemma exen_shared_under_counterexample : ¬ exen_partitions_piles.
Proof.
  intros Hall.
  set (h' := heap_after (exen 10 SharedUnder.h SharedUnder.A SharedUnder.B)).
  assert (exen 10 SharedUnder.h SharedUnder.A SharedUnder.B
          = Ok (h', Some ([SharedUnder.X; SharedUnder.A],
                          [SharedUnder.B; SharedUnder.X],
                          [SharedUnder.R], [SharedUnder.R]))) as Hex
    by (vm_compute; reflexivity).
  assert (cached_pile h' SharedUnder.A
          = Some [SharedUnder.R; SharedUnder.A; SharedUnder.X]) as HN
    by (vm_compute; reflexivity).
  assert (cached_pile h' SharedUnder.B
          = Some [SharedUnder.R; SharedUnder.B; SharedUnder.X]) as HF
    by (vm_compute; reflexivity).
  destruct (Hall _ _ _ _ _ _ _ _ _ _ _ Hex HN HF) as (_ & _ & _ & Hempty).
  assert (SharedUnder.X ∈@{gset ref} ∅) as Hin.
  { rewrite <-Hempty.
    - apply elem_of_intersection. split; apply elem_of_list_to_set.
      + apply list_elem_of_here.
      + apply list_elem_of_further, list_elem_of_here.
    - intros Hin.
      repeat (apply elem_of_cons in Hin as [Hin|Hin]; [discriminate|]).
      by apply elem_of_nil in Hin. }
  exact (not_elem_of_empty _ Hin).
Qed.

(** C10, as stated, fails: for [A = Box(name="A")] and
    [Y = Box(name="Y", over=A)], a box made with an over and not appended
    to the unders of that over, the piles are [A] and [A, Y], each the
    trace of its box and without repeats, and [exen(A, Y)] falls through
    the loop: at index 0, far is not A and both piles hold A. *)
Lemma exen_falls_through_counterexample : ¬ scan_never_falls_through.
Proof.
  intros Hall.
  set (h := heap_after (exen 10 HalfLinked.h HalfLinked.A HalfLinked.Y)).
  assert (exen 10 HalfLinked.h HalfLinked.A HalfLinked.Y = Ok (h, None))
    as Hex by (vm_compute; reflexivity).
  destruct (exen_fresh_traces _ _ _ _ _ _ Hex)
    as (_ & N & F & HN & HF & HtN & HtF); [vm_compute; reflexivity..|].
  assert (N = [HalfLinked.A]) as -> by (vm_compute in HN; by injection HN as <-).
  assert (F = [HalfLinked.A; HalfLinked.Y]) as ->
    by (vm_compute in HF; by injection HF as <-).
  destruct (Hall 10 h HalfLinked.A HalfLinked.Y _ _ HN HF HtN HtF)
    as (i & _ & Hi).
  - apply NoDup_singleton.
  - apply NoDup_cons. split; [|apply NoDup_singleton].
    intros Hin%list_elem_of_singleton. discriminate.
  - vm_compute in Hi. discriminate.
Qed.

(** The same happens with a pile cached before the links changed. *)
Example exen_stale_pile_falls_through :
  returned (pile 10 Stale.h2 Stale.A) = Ok [Stale.A] ∧
  returned (pile 10 Stale.h2 Stale.Y) = Ok [Stale.A; Stale.Y] ∧
  returned (exen 10 Stale.h2 Stale.A Stale.Y) = Ok None.
Proof. repeat split; by vm_compute. Qed.

End ExenTotal.

(** * Further properties *)

(** ** More on [exen] *)

Section ExenMore.

Import Boxing Scenes.

Implicit Types (h : heap) (N F : list ref) (near far : ref).

(** After [exen] both piles are cached, and the result is that of the scan
    of them. *)
Lemma exen_piles_cached fuel h near far h' r :
  exen fuel h near far = Ok (h', r) →
  ∃ N F, cached_pile h' near = Some N ∧ cached_pile h' far = Some F ∧
         exen_piles far N F = Ok r.
Proof.
  intros H. apply exen_inv in H as (h1 & N & F & HN & HF & Hq).
  apply pile_inv in HN as (HcN & _ & _ & _).
  apply pile_inv in HF as (HcF & _ & Hother & HF).
  exists N, F. split; [|done].
  destruct (decide (near = far)) as [->|Hne].
  - destruct HF as [[HF ->]|[HF _]]; [done|congruence].
  - unfold cached_pile in *. by rewrite Hother.
Qed.

(** On traced piles [exen] reads the caches and leaves the heap alone. *)
Lemma exen_cached fuel h near far N F :
  cached_pile h near = Some N → cached_pile h far = Some F →
  exen fuel h near far = (q ← exen_piles far N F; Ok (h, q)).
Proof.
  intros HN HF.
  exact (exen_unfold fuel h near far h h N F
           (pile_cached fuel h near N HN) (pile_cached fuel h far F HF)).
Qed.

(** The four lists keep the order of the piles: exits then rexits is the
    near pile bottom up, renters then enters is the far pile top down,
    rexits is renters reversed, and neither exits nor enters is empty. *)
Theorem exen_keeps_pile_order fuel h near far h' exits enters rexits renters :
  exen fuel h near far = Ok (h', Some (exits, enters, rexits, renters)) →
  ∃ N F,
    cached_pile h' near = Some N ∧ cached_pile h' far = Some F ∧
    exits ++ rexits = reverse N ∧
    renters ++ enters = F ∧
    rexits = reverse renters ∧
    exits ≠ [] ∧ enters ≠ [].
Proof.
  intros H. apply exen_piles_cached in H as (N & F & HN & HF & Hq).
  apply exen_piles_Some in Hq as (i & Hi & Hq). unfold split_at in Hq.
  injection Hq as -> -> -> ->.
  exists N, F. split; [done|]. split; [done|].
  pose proof (split_at_sets far N F i Hi) as Hpre.
  pose proof (uncommon_at_lt far N F i (proj1 Hi)) as Hlt.
  split; [by rewrite <-reverse_app, take_drop|].
  split; [by rewrite take_drop|]. split; [by rewrite Hpre|].
  split; intros Hnil%(f_equal length);
    rewrite ?length_reverse, length_drop in Hnil; simpl in Hnil; lia.
Qed.

Lemma exen_keeps_pile_order_witness :
  ∃ N F,
    cached_pile (heap_after (exen 10 S4.h S4.X S4.Y)) S4.X = Some N ∧
    cached_pile (heap_after (exen 10 S4.h S4.X S4.Y)) S4.Y = Some F ∧
    [S4.X] ++ [S4.A; S4.R] = reverse N ∧
    [S4.R; S4.A] ++ [S4.Y] = F ∧
    [S4.A; S4.R] = reverse [S4.R; S4.A] ∧
    [S4.X] ≠ [] ∧ [S4.Y] ≠ [].
Proof.
  apply (exen_keeps_pile_order 10 S4.h S4.X S4.Y
           (heap_after (exen 10 S4.h S4.X S4.Y))).
  vm_compute. reflexivity.
Defined.

(** On traced piles [exen] raises nothing and changes nothing; it returns
    [None] exactly when the piles agree up to the length of the shorter
    and far is not among those boxes. *)
Theorem exen_falls_through_iff fuel h near far N F :
  cached_pile h near = Some N → cached_pile h far = Some F →
  (∃ r, exen fuel h near far = Ok (h, r)) ∧
  (exen fuel h near far = Ok (h, None) ↔
   take (length N `min` length F) N = take (length N `min` length F) F ∧
   far ∉ take (length N `min` length F) N).
Proof.
  intros HN HF. rewrite (exen_cached fuel h near far N F HN HF).
  destruct (exen_piles_defined far N F) as [r Hr]. rewrite Hr. simpl.
  split; [eauto|]. split.
  - intros [= ->]. pose proof (exen_piles_None _ _ _ Hr) as Hc. split.
    + apply list_eq. intros j.
      destruct (decide (j < length N `min` length F)) as [Hj|Hj].
      * rewrite !lookup_take_lt by done.
        destruct (Hc j Hj) as (n & -> & -> & _). done.
      * rewrite !lookup_take_ge by lia. done.
    + intros [j [Hj Hlt]]%elem_of_take.
      destruct (Hc j Hlt) as (n & Hn & _ & Hne). congruence.
  - intros [Heq Hnotin]. f_equal. f_equal.
    destruct r as [q|]; [|done]. exfalso.
    apply exen_piles_Some in Hr as (i & [(n & f & Hn & Hf & Hor) _] & _).
    assert (i < length N `min` length F) as Hlt.
    { apply lookup_lt_Some in Hn. apply lookup_lt_Some in Hf. lia. }
    destruct Hor as [->|Hne].
    + apply Hnotin. apply elem_of_take. eauto.
    + apply Hne. apply (f_equal (λ l, l !! i)) in Heq.
      rewrite !lookup_take_lt in Heq by done. congruence.
Qed.

Lemma exen_falls_through_iff_witness :
  let h := heap_after (exen 10 HalfLinked.h HalfLinked.A HalfLinked.Y) in
  let N := [HalfLinked.A] in
  let F := [HalfLinked.A; HalfLinked.Y] in
  (∃ r, exen 10 h HalfLinked.A HalfLinked.Y = Ok (h, r)) ∧
  (exen 10 h HalfLinked.A HalfLinked.Y = Ok (h, None) ↔
   take (length N `min` length F) N = take (length N `min` length F) F ∧
   HalfLinked.Y ∉ take (length N `min` length F) N).
Proof.
  intros h N F.
  apply (exen_falls_through_iff 10 h HalfLinked.A HalfLinked.Y N F).
  - vm_compute. reflexivity.
  - vm_compute. reflexivity.
Defined.

(** When far is a box of the near pile, at index s, and both piles are
    linked by overs from the top, the scan stops at s: the boxes from far
    down are exited and those of the far pile from far down are entered,
    and the boxes above far are re-exited and re-entered. *)
Theorem exen_reentry_at_far fuel h near far N F s :
  cached_pile h near = Some N → cached_pile h far = Some F →
  over_linked h N → over_linked h F →
  N !! s = Some far → far ∈ F →
  exen fuel h near far
  = Ok (h, Some (reverse (drop s N), drop s F,
                 reverse (take s N), take s F)) ∧
  take s F = take s N ∧ F !! s = Some far.
Proof.
  intros HN HF HlN HlF Hs [sf Hsf]%list_elem_of_lookup.
  destruct (over_linked_common h N F s sf far HlN HlF Hs Hsf) as [<- Hpre].
  assert (first_uncommon far N F s) as Hfirst.
  { split; [exists far, far; auto|].
    intros j Hj.
    destruct (lookup_lt_is_Some_2 N j) as [n Hn].
    { apply lookup_lt_Some in Hs. lia. }
    exists n. split; [done|]. split; [rewrite <-Hpre by lia; done|].
    intros <-. pose proof (over_linked_NoDup h N HlN) as Hnd.
    rewrite NoDup_alt in Hnd. specialize (Hnd _ _ _ Hs Hn). lia. }
  split; [|split; [by apply split_at_sets in Hfirst|done]].
  rewrite (exen_cached fuel h near far N F HN HF).
  by rewrite (exen_piles_first _ _ _ _ Hfirst).
Qed.

Lemma exen_reentry_at_far_witness :
  let h := heap_after (exen 10 S4.h S4.X S4.A) in
  let N := [S4.R; S4.A; S4.X] in
  let F := [S4.R; S4.A; S4.X] in
  exen 10 h S4.X S4.A
  = Ok (h, Some (reverse (drop 1 N), drop 1 F,
                 reverse (take 1 N), take 1 F)) ∧
  take 1 F = take 1 N ∧ F !! 1 = Some S4.A.
Proof.
  intros h N F.
  assert (exen 10 S4.h S4.X S4.A
          = Ok (h, Some ([S4.X; S4.A], [S4.A; S4.X], [S4.R], [S4.R]))) as Hex
    by (vm_compute; reflexivity).
  destruct (exen_fresh_traces _ _ _ _ _ _ Hex)
    as (Hl & N' & F' & HN & HF & HtN & HtF); [vm_compute; reflexivity..|].
  assert (N' = N) as -> by (vm_compute in HN; by injection HN as <-).
  assert (F' = F) as -> by (vm_compute in HF; by injection HF as <-).
  assert (unders_point_back h) as Hback.
  { apply (unders_point_back_ext S4.h h Hl).
    exact (proj1 (bx_unders_point_back _ _ _ _ S4_made)). }
  apply (exen_reentry_at_far 10 h S4.X S4.A N F 1).
  - exact HN.
  - exact HF.
  - exact (is_trace_over_linked h S4.X N HtN Hback).
  - exact (is_trace_over_linked h S4.A F HtF Hback).
  - reflexivity.
  - apply list_elem_of_further, list_elem_of_here.
Defined.

End ExenMore.

(** ** More on traces *)

Section TraceMore.

Import Boxing Scenes.

Implicit Types (h : heap) (self r : ref).

Lemma trace_up_name_above h o n fuel acc :
  name_above h o n → n ≤ fuel →
  trace_up fuel h o acc = Raise AttributeError.
Proof.
  revert o fuel acc. induction n as [|n IH]; intros o fuel acc Hn Hf.
  - destruct Hn as (s & -> & Hs). apply trace_up_str. simpl.
    by rewrite bool_decide_eq_false_2.
  - destruct Hn as (r & b & -> & Hb & Hn).
    destruct fuel as [|fuel]; [lia|]. simpl. unfold deref. rewrite Hb.
    simpl. apply IH; [done|lia].
Qed.

Lemma pile_uncached fuel h self :
  cached_pile h self = None → is_Some (h !! self) →
  pile fuel h self
  = (h' ← _trace fuel h self;
     b' ← deref h' self;
     match _pile b' with
     | Some p => Ok (h', p)
     | None => Raise NoSuchObject
     end).
Proof.
  unfold cached_pile, pile, deref. intros Hc [b Hb]. rewrite Hb in *.
  simpl in *. by rewrite Hc.
Qed.

(** A box with a name still in place of an over, its own or that of a box
    above it, cannot be traced: [_trace], and [pile] when nothing is
    cached, raise [AttributeError]. *)
Theorem trace_under_name_fails h self b n :
  h !! self = Some b → name_above h (over b) n →
  ∀ fuel, n ≤ fuel →
    _trace fuel h self = Raise AttributeError ∧
    (cached_pile h self = None →
     pile fuel h self = Raise AttributeError).
Proof.
  intros Hb Hn fuel Hf.
  assert (_trace fuel h self = Raise AttributeError) as Htr.
  { unfold _trace, deref. rewrite Hb. simpl.
    by rewrite (trace_up_name_above h (over b) n fuel [] Hn Hf). }
  split; [done|]. intros Hc.
  rewrite pile_uncached by (by rewrite ?Hb). by rewrite Htr.
Qed.

Lemma trace_under_name_fails_witness :
  _trace 3 Unresolved.h Unresolved.a = Raise AttributeError ∧
  (cached_pile Unresolved.h Unresolved.a = None →
   pile 3 Unresolved.h Unresolved.a = Raise AttributeError).
Proof.
  eapply (trace_under_name_fails Unresolved.h Unresolved.a _ 0).
  - vm_compute. reflexivity.
  - simpl. exists "b". split; [reflexivity|discriminate].
  - lia.
Defined.

Lemma trace_up_over_cycle h S r fuel acc :
  over_cycle h S → r ∈ S → trace_up fuel h (OBox r) acc = Diverge.
Proof.
  intros Hcyc. revert r acc. induction fuel as [|fuel IH]; intros r acc Hr.
  - done.
  - destruct (Hcyc r Hr) as (b & r' & Hb & Ho & Hr').
    simpl. unfold deref. rewrite Hb. simpl. rewrite Ho. by apply IH.
Qed.

Lemma trace_down_under_cycle h S r fuel acc :
  under_cycle h S → r ∈ S → trace_down fuel h (Some r) acc = Diverge.
Proof.
  intros Hcyc. revert r acc. induction fuel as [|fuel IH]; intros r acc Hr.
  - done.
  - destruct (Hcyc r Hr) as (b & r' & Hb & Ho & Hr').
    simpl. unfold deref. rewrite Hb. simpl. rewrite Ho. by apply IH.
Qed.

(** A box whose overs run in a cycle is never traced: whatever the fuel,
    [_trace] does not come back.  Neither is a box whose primary unders
    run in a cycle. *)
Theorem trace_on_cycle_never_returns h S self b :
  h !! self = Some b →
  (over_cycle h S → ∀ r, over b = OBox r → r ∈ S →
   ∀ fuel, _trace fuel h self = Diverge) ∧
  (under_cycle h S → ∀ r, primary b = Some r → r ∈ S →
   ∀ fuel h', _trace fuel h self ≠ Ok h').
Proof.
  intros Hb. split.
  - intros Hcyc r Ho Hr fuel. unfold _trace, deref. rewrite Hb. simpl.
    rewrite Ho. by rewrite (trace_up_over_cycle h S r fuel [] Hcyc Hr).
  - intros Hcyc r Hp Hr fuel h' H. unfold _trace, deref in H.
    rewrite Hb in H. simpl in H.
    apply bind_Ok in H as (up & _ & H). rewrite Hp in H.
    by rewrite (trace_down_under_cycle h S r fuel _ Hcyc Hr) in H.
Qed.

Lemma trace_on_cycle_never_returns_witness :
  (∀ fuel, _trace fuel Loops.h Loops.A = Diverge) ∧
  (∀ fuel h', _trace fuel Loops.h Loops.B ≠ Ok h').
Proof.
  split.
  - assert (∃ b, Loops.h !! Loops.A = Some b ∧ over b = OBox Loops.A)
      as (b & Hb & Ho) by (eexists; split; vm_compute; reflexivity).
    apply (proj1 (trace_on_cycle_never_returns Loops.h {[Loops.A]}
                    Loops.A b Hb)) with Loops.A; [|done|set_solver].
    intros r ->%elem_of_singleton. exists b, Loops.A.
    split; [done|]. split; [done|set_solver].
  - assert (∃ b, Loops.h !! Loops.B = Some b ∧ primary b = Some Loops.B)
      as (b & Hb & Ho) by (eexists; split; vm_compute; reflexivity).
    apply (proj2 (trace_on_cycle_never_returns Loops.h {[Loops.B]}
                    Loops.B b Hb)) with Loops.B; [|done|set_solver].
    intros r ->%elem_of_singleton. exists b, Loops.B.
    split; [done|]. split; [done|set_solver].
Defined.

(** The first read of [pile] traces the box once and fills its three
    caches: from then on [pile], [spot] and [trail] return the cached
    values and leave the heap alone, the box is at its spot in its pile,
    and no other box and no link was touched. *)
Theorem pile_traces_once fuel h self h1 p :
  cached_pile h self = None →
  pile fuel h self = Ok (h1, p) →
  (∀ f, pile f h1 self = Ok (h1, p)) ∧
  (∃ s t, (∀ f, spot f h1 self = Ok (h1, s)) ∧
          (∀ f, trail f h1 self = Ok (h1, t)) ∧
          p !! s = Some self) ∧
  same_links h h1 ∧
  (∀ r, r ≠ self → h1 !! r = h !! r).
Proof.
  intros Hc H. pose proof H as Hinv.
  apply pile_inv in Hinv as (Hc1 & Hl & Hoth & _).
  split; [intros f; by apply pile_cached|].
  split; [|done].
  unfold pile in H. apply bind_Ok in H as (b & Hb & H).
  apply deref_Ok in Hb. unfold cached_pile in Hc. rewrite Hb in Hc.
  simpl in Hc. rewrite Hc in H.
  apply bind_Ok in H as (h' & Htr & H).
  apply bind_Ok in H as (b' & Hb' & H). apply deref_Ok in Hb'.
  destruct (_pile b') as [p'|] eqn:Hp'; [|done]. injection H as -> ->.
  apply _trace_inv in Htr as (b0 & ups & downs & t & Hb0 & Hu & Hd & ->).
  rewrite lookup_insert_eq in Hb'. injection Hb' as <-. simpl in Hp'.
  injection Hp' as <-.
  exists (length ups), t. split; [|split].
  - intros f. apply spot_cached. unfold cached_spot.
    by rewrite lookup_insert_eq.
  - intros f. unfold trail, deref. by rewrite lookup_insert_eq.
  - apply traced_pile_spot.
Qed.

Lemma pile_traces_once_witness :
  let h1 := heap_after (pile 10 S4.h S4.A) in
  let p := [S4.R; S4.A; S4.X] in
  (∀ f, pile f h1 S4.A = Ok (h1, p)) ∧
  (∃ s t, (∀ f, spot f h1 S4.A = Ok (h1, s)) ∧
          (∀ f, trail f h1 S4.A = Ok (h1, t)) ∧
          p !! s = Some S4.A) ∧
  same_links S4.h h1 ∧
  (∀ r, r ≠ S4.A → h1 !! r = S4.h !! r).
Proof.
  intros h1 p. apply (pile_traces_once 10 S4.h S4.A h1 p).
  - vm_compute. reflexivity.
  - vm_compute. reflexivity.
Defined.

End TraceMore.

(** ** Default names *)

Section DefaultNames.

Import Boxing Scenes.


Lemma dict_has_false {V} (d : dict V) k :
  dict_has d k = false ↔ dict_get d k = None.
Proof. unfold dict_has. by destruct (dict_get d k). Qed.

(** Lookup after assignment. *)
Lemma dict_get_set_eq {V} (d : dict V) k v :
  dict_get (dict_set d k v) k = Some v.
Proof.
  induction d as [|[k' v'] d IH]; simpl.
  - by rewrite bool_decide_eq_true_2.
  - case_bool_decide as Hk; simpl.
    + by rewrite bool_decide_eq_true_2.
    + by rewrite bool_decide_eq_false_2.
Qed.

Lemma dict_get_set_ne {V} (d : dict V) k v k' :
  k' ≠ k → dict_get (dict_set d k v) k' = dict_get d k'.
Proof.
  intros Hne. induction d as [|[k0 v0] d IH]; simpl.
  - by rewrite bool_decide_eq_false_2.
  - case_bool_decide as Hk; simpl.
    + subst. by rewrite !bool_decide_eq_false_2.
    + case_bool_decide; [done|]. apply IH.
Qed.












End DefaultNames.

(** ** What [bx] makes and what it refuses *)

Section BxMore.

Import Boxing Scenes.

Implicit Types (h : heap) (self : Boxer) (m : WorkDom).

Lemma Box_init_fields nm ov b :
  Box_init nm ov = Ok b →
  name b = nm ∧ over b = ov ∧ unders b = [] ∧ tracts b = [] ∧
  _pile b = None ∧ _next b = None ∧ Renam_match nm = true.
Proof.
  unfold Box_init. destruct (Renam_match nm); [|done]. by intros [= <-].
Qed.

(** In a boxwork in order, [bx] makes a box that was not there before,
    with the name asked for, no unders, no tracts and no pile cached; the
    box is entered in [boxes] under its name, which was free, and the names
    entered before still lead to the same boxes; its over is none or a box
    whose unders it now ends; it becomes the current box, and the box that
    was current has it as [_next]. *)
Theorem bx_makes_box fuel self h m nm ov self' h' m' new :
  boxwork_ok (self, h, m) →
  bx fuel self h m nm ov = Ok (self', h', m', new) →
  h !! new = None ∧
  ∃ b,
    h' !! new = Some (with_next b (_next b)) ∧
    (∀ s, nm = Some s → name b = s) ∧
    Renam_match (name b) = true ∧
    dict_get (boxes self) (name b) = None ∧
    dict_get (boxes self') (name b) = Some new ∧
    (∀ k r, dict_get (boxes self) k = Some r →
            dict_get (boxes self') k = Some r) ∧
    unders b = [] ∧ tracts b = [] ∧ _pile b = None ∧
    (over b = ONone ∧ wover m' = None ∨
     ∃ o bo bo', over b = OBox o ∧ wover m' = Some o ∧
       h !! o = Some bo ∧ h' !! o = Some bo' ∧
       unders bo' = unders bo ++ [new]) ∧
    wbox m' = Some new ∧
    (∀ p, wbox m = Some p →
          ∃ bp, h' !! p = Some bp ∧ _next bp = Some new).
Proof.
  intros (Htree & Hboxes & Hwover & Hwbox) H. unfold bx in H.
  apply bind_Ok in H as ([nm' idx] & Hnm & H).
  destruct (dict_has (boxes self) nm') eqn:Hfree; [done|].
  apply dict_has_false in Hfree.
  apply bind_Ok in H as ([ov' bs] & Hov & H).
  apply bind_Ok in H as (b & Hb & H).
  apply Box_init_fields in Hb as (Hname & Hob & Hub & Htb & Hpb & Hnb & Hre).
  apply bind_Ok in H as (h1 & Hh1 & H).
  apply bind_Ok in H as (h2 & Hh2 & H).
  injection H as <- <- <- <-.
  set (new := fresh (dom h)) in *.
  assert (h !! new = None) as Hnew.
  { apply not_elem_of_dom. apply is_fresh. }
  assert ((∀ o, ov' = Some o → is_Some (h !! o)) ∧
          (∀ k r, dict_get (boxes self) k = Some r → dict_get bs k = Some r))
    as [Hov' Hbs].
  { destruct ov as [|r|s]; simpl in Hov.
    - by injection Hov as <- <-.
    - apply bind_Ok in Hov as (br & Hbr & Hov). apply deref_Ok in Hbr.
      destruct (dict_has (boxes self) (name br)) eqn:Hhas;
        injection Hov as <- <-.
      + split; [by intros o [= <-]|done].
      + split; [by intros o [= <-]|].
        intros k r' Hk. rewrite dict_get_set_ne; [done|].
        intros ->. apply dict_has_false in Hhas. congruence.
    - case_bool_decide.
      + injection Hov as <- <-. split; [apply Hwover|done].
      + destruct (dict_get (boxes self) s) as [r|] eqn:Hget; [|done].
        injection Hov as <- <-. split; [|done].
        intros o [= <-]. eapply Hboxes. by apply dict_get_elem. }
  split; [done|]. exists b.
  assert (∀ p, wbox m = Some p → p ≠ new) as Hpne.
  { intros p Hp ->. destruct (Hwbox _ Hp) as [? ?]. congruence. }
  assert (h1 !! new = Some b ∧
          (over b = ONone ∧ ov' = None ∨
           ∃ o bo, over b = OBox o ∧ ov' = Some o ∧ h !! o = Some bo ∧
             h1 !! o = Some (with_unders bo (unders bo ++ [new]))) ∧
          ∀ p, p ≠ new → is_Some (h !! p) → is_Some (h1 !! p))
    as (Hn1 & Hover1 & Hdom1).
  { destruct ov' as [o|]; simpl in Hh1.
    - apply bind_Ok in Hh1 as (bo & Hbo & Hh1). apply deref_Ok in Hbo.
      injection Hh1 as <-.
      destruct (Hov' o eq_refl) as [bo' Hbo'].
      assert (o ≠ new) as Hne by (intros ->; congruence).
      rewrite lookup_insert_ne in Hbo by done. simplify_eq.
      split; [by rewrite lookup_insert_ne, lookup_insert_eq|].
      split.
      + right. exists o, bo. by rewrite lookup_insert_eq.
      + intros p Hp Hin. by do 2 apply lookup_insert_is_Some'.
    - injection Hh1 as <-. split; [by rewrite lookup_insert_eq|].
      split; [by left|]. intros p Hp Hin. by apply lookup_insert_is_Some'. }
  assert (h2 !! new = Some b ∧
          (∀ o bo, h1 !! o = Some bo →
             ∃ bo', h2 !! o = Some bo' ∧ unders bo' = unders bo) ∧
          ∀ p, wbox m = Some p →
               ∃ bp, h2 !! p = Some bp ∧ _next bp = Some new)
    as (Hn2 & Hu2 & Hnext).
  { destruct (wbox m) as [p|] eqn:Hp; simpl in Hh2.
    - apply bind_Ok in Hh2 as (bp & Hbp & Hh2). apply deref_Ok in Hbp.
      injection Hh2 as <-.
      split; [by rewrite lookup_insert_ne by (by apply Hpne)|]. split.
      + intros o bo Ho. destruct (decide (p = o)) as [->|Hne].
        * rewrite lookup_insert_eq. eexists. split; [done|]. simpl.
          congruence.
        * rewrite lookup_insert_ne by done. eauto.
      + intros p' [= <-]. rewrite lookup_insert_eq. eauto.
    - injection Hh2 as <-. split; [done|]. split; [eauto|done]. }
  split; [by destruct b|].
  split; [intros s ->; simpl in Hnm; case_bool_decide; by simplify_eq|].
  split; [by rewrite Hname|]. split; [by rewrite Hname|].
  split; [simpl; rewrite Hname; apply dict_get_set_eq|].
  split.
  { intros k r Hk. simpl. rewrite dict_get_set_ne; [by apply Hbs|].
    intros ->. congruence. }
  split; [done|]. split; [done|]. split; [done|].
  split; [|split; [done|done]].
  destruct Hover1 as [[Ho ->]|(o & bo & Ho & -> & Hbo & Hbo1)]; [by left|].
  right. destruct (Hu2 o _ Hbo1) as (bo' & Hbo' & Hu').
  exists o, bo, bo'. by rewrite Hu'.
Qed.

Lemma bx_makes_box_witness :
  let made := build [(Some "R", ONone); (Some "A", OStr "R")]
                    (boxer0, ∅, works0) in
  let self := boxer_of made in
  let h := heap_of made in
  let m := works_of made in
  let new := 2 in
  ∃ self' h' m',
    bx 10 self h m (Some "X") (OStr "A") = Ok (self', h', m', new) ∧
    h !! new = None ∧
    ∃ b,
      h' !! new = Some (with_next b (_next b)) ∧
      (∀ s, Some "X" = Some s → name b = s) ∧
      Renam_match (name b) = true ∧
      dict_get (boxes self) (name b) = None ∧
      dict_get (boxes self') (name b) = Some new ∧
      (∀ k r, dict_get (boxes self) k = Some r →
              dict_get (boxes self') k = Some r) ∧
      unders b = [] ∧ tracts b = [] ∧ _pile b = None ∧
      (over b = ONone ∧ wover m' = None ∨
       ∃ o bo bo', over b = OBox o ∧ wover m' = Some o ∧
         h !! o = Some bo ∧ h' !! o = Some bo' ∧
         unders bo' = unders bo ++ [new]) ∧
      wbox m' = Some new ∧
      (∀ p, wbox m = Some p →
            ∃ bp, h' !! p = Some bp ∧ _next bp = Some new).
Proof.
  intros made self h m new.
  destruct (bx 10 self h m (Some "X") (OStr "A"))
    as [[[[self' h'] m'] new']| |] eqn:Hbx; [|by vm_compute in Hbx..].
  assert (new' = new) as -> by (vm_compute in Hbx; by injection Hbx).
  exists self', h', m'. split; [done|].
  apply (bx_makes_box 10 self h m (Some "X") (OStr "A") self' h' m' new);
    [|done].
  apply (build_boxwork_ok [(Some "R", ONone); (Some "A", OStr "R")]
           (boxer0, ∅, works0)); [apply boxwork_ok_start|].
  vm_compute. reflexivity.
Defined.

(** What [bx] refuses, in the order it checks: an empty name, whatever
    the over; a name that is already a key of [boxes], whatever the over;
    an over given by a name that is no key of [boxes] (a box is made after
    its over), whether or not the name is an identifier; and, whatever the
    over once it is worked out (none, the current level, the name of a box
    of [boxes], or a box), a name that is no identifier.  Each is a
    [HierError]. *)
Theorem bx_refusals fuel self h m :
  (∀ ov, bx fuel self h m (Some "") ov = Raise (HierError "Missing name.")) ∧
  (∀ s ov, s ≠ "" → is_Some (dict_get (boxes self) s) →
     bx fuel self h m (Some s) ov = Raise (HierError "Non-unique box")) ∧
  (∀ s o, s ≠ "" → dict_get (boxes self) s = None →
     o ≠ "" → dict_get (boxes self) o = None →
     bx fuel self h m (Some s) (OStr o)
     = Raise (HierError "Under box defined before its over")) ∧
  (∀ s ov, s ≠ "" → dict_get (boxes self) s = None →
     Renam_match s = false →
     (∀ o, ov = OStr o → o ≠ "" → is_Some (dict_get (boxes self) o)) →
     (∀ r, ov = OBox r → is_Some (h !! r)) →
     bx fuel self h m (Some s) ov = Raise (HierError "Invalid name")).
Proof.
  split; [|split; [|split]].
  - done.
  - intros s ov Hs [r Hr]. unfold bx, dict_has. simpl.
    rewrite (bool_decide_eq_false_2 (s = "")) by done. simpl. by rewrite Hr.
  - intros s o Hs Hfree Ho Hget. unfold bx, dict_has. simpl.
    rewrite (bool_decide_eq_false_2 (s = "")) by done. simpl. rewrite Hfree.
    rewrite (bool_decide_eq_false_2 (o = "")) by done. by rewrite Hget.
  - intros s ov Hs Hfree Hre Hstr Hbox. unfold bx, dict_has. simpl.
    rewrite (bool_decide_eq_false_2 (s = "")) by done. simpl. rewrite Hfree.
    unfold Box_init. rewrite Hre.
    destruct ov as [|r|o]; simpl.
    + done.
    + destruct (Hbox r eq_refl) as [b Hb]. unfold deref. rewrite Hb. simpl.
      by destruct (dict_get (boxes self) (name b)).
    + case_bool_decide as Ho; [done|].
      destruct (Hstr o eq_refl Ho) as [r ->]. done.
Qed.

Lemma bx_refusals_witness :
  (∀ ov, bx 10 S4.boxer S4.h S4.works (Some "") ov
         = Raise (HierError "Missing name.")) ∧
  bx 10 S4.boxer S4.h S4.works (Some "A") ONone
  = Raise (HierError "Non-unique box") ∧
  bx 10 S4.boxer S4.h S4.works (Some "Z") (OStr "Q")
  = Raise (HierError "Under box defined before its over") ∧
  bx 10 S4.boxer S4.h S4.works (Some "9z") (OStr "A")
  = Raise (HierError "Invalid name") ∧
  bx 10 S4.boxer S4.h S4.works (Some "9z") (OBox S4.X)
  = Raise (HierError "Invalid name").
Proof.
  destruct (bx_refusals 10 S4.boxer S4.h S4.works) as (H1 & H2 & H3 & H4).
  split; [exact H1|]. split; [|split; [|split]].
  - apply H2; [discriminate|]. vm_compute. eexists. reflexivity.
  - apply H3; first [discriminate | vm_compute; reflexivity].
  - apply H4; [discriminate|vm_compute; reflexivity|vm_compute; reflexivity| |].
    + intros o [= <-] _. vm_compute. eexists. reflexivity.
    + discriminate.
  - apply H4; [discriminate|vm_compute; reflexivity|vm_compute; reflexivity| |].
    + discriminate.
    + intros r [= <-]. vm_compute. eexists. reflexivity.
Defined.

End BxMore.

(** ** [go], [resolve] and [make] *)

Section ResolveMore.

Import Boxing Scenes.

Implicit Types (h : heap) (self : Boxer) (m : WorkDom) (bs : dict ref).

Lemma same_links_with_tracts h r b ts :
  h !! r = Some b → same_links h (<[r := with_tracts b ts]> h).
Proof.
  intros Hb x. destruct (decide (r = x)) as [->|Hne].
  - by rewrite lookup_insert_eq, Hb.
  - by rewrite lookup_insert_ne.
Qed.

Lemma same_links_trans h1 h2 h3 :
  same_links h1 h2 → same_links h2 h3 → same_links h1 h3.
Proof. intros H12 H23 x. destruct (H12 x) as [-> ->]. apply H23. Qed.

(** [go] appends one tract to the tracts of the current box and touches
    nothing else: the links, the caches and the other boxes stay.  The
    tract carries the expression as given; its dest is the box handed in,
    or the box of that name when the name is a key of [boxes], or the name
    itself, kept for [resolve], when it is an identifier that is no key
    yet; with no dest, an empty one or ['next'] it is the [_next] of the
    current box, or the name ['next'] when there is none yet.  A name that
    is no identifier is refused with [HierError]; otherwise, without a
    current box the call fails with [AttributeError]. *)
Theorem go_appends_one_tract self h m dst expr :
  (∀ s, dst = DStr s → s ∉ [""; "next"; "Next"; "NEXT"] →
     Renam_match s = false →
     go self h m dst expr = Raise (HierError "Invalid dest")) ∧
  (wbox m = None →
     (∀ s, dst = DStr s → s ∉ [""; "next"; "Next"; "NEXT"] →
           Renam_match s = true) →
     go self h m dst expr = Raise AttributeError) ∧
  (∀ h' t, go self h m dst expr = Ok (h', t) →
     ∃ cur b,
       wbox m = Some cur ∧ h !! cur = Some b ∧
       h' = <[cur := with_tracts b (tracts b ++ [t])]> h ∧
       same_links h h' ∧ need t = expr ∧
       (∀ r, dst = DBox r → dest t = DBox r) ∧
       (∀ s, dst = DStr s → s ∉ [""; "next"; "Next"; "NEXT"] →
          dest t = match dict_get (boxes self) s with
                   | Some r => DBox r
                   | None => DStr s
                   end) ∧
       (dst = DNone ∨ (∃ s, dst = DStr s ∧ s ∈ [""; "next"; "Next"; "NEXT"]) →
        dest t = match _next b with
                 | Some r => DBox r
                 | None => DStr "next"
                 end)).
Proof.
  assert (∀ s, s ∉ [""; "next"; "Next"; "NEXT"] →
            bool_decide (s = "") || bool_decide (s = "next")
            || bool_decide (s = "Next") || bool_decide (s = "NEXT") = false)
    as Hout.
  { intros s Hs. rewrite !orb_false_iff.
    repeat split; apply bool_decide_eq_false_2; intros ->; apply Hs;
      set_solver. }
  assert (∀ s, s ∈ [""; "next"; "Next"; "NEXT"] →
            bool_decide (s = "") || bool_decide (s = "next")
            || bool_decide (s = "Next") || bool_decide (s = "NEXT") = true)
    as Hin.
  { intros s Hs. rewrite !orb_true_iff.
    repeat (apply elem_of_cons in Hs as [->|Hs]; [auto 6|]).
    by apply elem_of_nil in Hs. }
  split; [|split].
  - intros s -> Hs Hre. unfold go. rewrite (Hout s Hs). by rewrite Hre.
  - intros Hw Hval. unfold go. rewrite Hw. simpl.
    destruct dst as [|r|s]; simpl; [done|done|].
    destruct (decide (s ∈ [""; "next"; "Next"; "NEXT"])) as [Hs|Hs].
    + by rewrite (Hin s Hs).
    + rewrite (Hout s Hs), (Hval s eq_refl Hs).
      by destruct (dict_get (boxes self) s).
  - intros h' t H. unfold go in H.
    apply bind_Ok in H as (d & Hd & H).
    apply bind_Ok in H as ([cur b] & Hcur & H). injection H as <- <-.
    assert (wbox m = Some cur ∧ h !! cur = Some b) as [Hw Hb].
    { apply bind_Ok in Hcur as (c & Hc & Hcur).
      destruct (wbox m) as [c'|]; [|done]. injection Hc as ->.
      apply bind_Ok in Hcur as (b' & Hb & Hcur). apply deref_Ok in Hb.
      by injection Hcur as -> ->. }
    rewrite Hw in Hd. simpl in Hd. unfold deref in Hd. rewrite Hb in Hd.
    simpl in Hd.
    exists cur, b. split; [done|]. split; [done|]. split; [done|].
    split; [by apply same_links_with_tracts|]. split; [done|]. simpl.
    split; [intros r ->; by injection Hd as <-|]. split.
    + intros s -> Hs. rewrite (Hout s Hs) in Hd.
      destruct (Renam_match s); [|done].
      by destruct (dict_get (boxes self) s) as [r|]; injection Hd as <-.
    + intros [->|(s & -> & Hs)]; [by injection Hd as <-|].
      rewrite (Hin s Hs) in Hd. by injection Hd as <-.
Qed.

Lemma go_appends_one_tract_witness :
  (go S4.boxer S4.h S4.works (DStr "9z") None
   = Raise (HierError "Invalid dest")) ∧
  (go S4.boxer S4.h works0 (DStr "X") None = Raise AttributeError) ∧
  (∃ h' t, go S4.boxer S4.h S4.works (DStr "X") (Some "True") = Ok (h', t) ∧
     dest t = DBox S4.X ∧ need t = Some "True" ∧ same_links S4.h h').
Proof.
  split; [|split].
  - apply (proj1 (go_appends_one_tract S4.boxer S4.h S4.works (DStr "9z") None)
             "9z"); [reflexivity| |reflexivity].
    intros Hin. repeat (apply elem_of_cons in Hin as [Hin|Hin]; [discriminate|]).
    by apply elem_of_nil in Hin.
  - apply (proj1 (proj2 (go_appends_one_tract S4.boxer S4.h works0
                           (DStr "X") None))); [reflexivity|].
    intros s [= <-] _. reflexivity.
  - destruct (go S4.boxer S4.h S4.works (DStr "X") (Some "True"))
      as [[h' t]| |] eqn:Hgo; [|by vm_compute in Hgo..].
    exists h', t. split; [done|].
    destruct (proj2 (proj2 (go_appends_one_tract S4.boxer S4.h S4.works
                              (DStr "X") (Some "True"))) h' t Hgo)
      as (cur & b & _ & _ & _ & Hl & Hn & _ & Hd & _).
    split; [|done]. rewrite (Hd "X" eq_refl); [reflexivity|].
    intros Hin. repeat (apply elem_of_cons in Hin as [Hin|Hin]; [discriminate|]).
    by apply elem_of_nil in Hin.
Defined.

(** *** [resolve] *)

Lemma resolve_tract_resolved bs nxt t t' :
  resolve_tract bs nxt t = Ok t' → ∀ s, dest t' ≠ DStr s.
Proof.
  unfold resolve_tract. intros H s.
  destruct (dest t) as [|r|s0] eqn:Hd.
  - injection H as <-. by rewrite Hd.
  - injection H as <-. by rewrite Hd.
  - case_bool_decide.
    + injection H as <-. simpl. by destruct nxt.
    + destruct (dict_get bs s0); [|done]. by injection H as <-.
Qed.

Lemma resolve_tracts_resolved bs nxt ts ts' :
  resolve_tracts bs nxt ts = Ok ts' →
  length ts' = length ts ∧ ∀ t, t ∈ ts' → ∀ s, dest t ≠ DStr s.
Proof.
  revert ts'. induction ts as [|t ts IH]; intros ts' H; simpl in H.
  - injection H as <-. split; [done|]. intros t Hin. by apply elem_of_nil in Hin.
  - apply bind_Ok in H as (t1 & Ht1 & H).
    apply bind_Ok in H as (ts1 & Hts1 & H). injection H as <-.
    destruct (IH _ Hts1) as [Hlen Hres]. split; [simpl; by rewrite Hlen|].
    intros t' [->|Hin]%elem_of_cons; [|by apply Hres].
    by eapply resolve_tract_resolved.
Qed.

(** Resolved tracts resolve to themselves. *)
Lemma resolve_tracts_again bs nxt nxt' ts ts' :
  resolve_tracts bs nxt ts = Ok ts' → resolve_tracts bs nxt' ts' = Ok ts'.
Proof.
  intros H. apply resolve_tracts_resolved in H as [_ Hres].
  induction ts' as [|t ts' IH]; [done|]. simpl.
  assert (resolve_tract bs nxt' t = Ok t) as ->.
  { unfold resolve_tract. destruct (dest t) as [| |s] eqn:Hd; [done..|].
    destruct (Hres t (list_elem_of_here _ _) s Hd). }
  simpl. rewrite IH; [done|].
  intros t' Hin. apply Hres. by apply list_elem_of_further.
Qed.

Lemma with_tracts_again b ts ts' :
  with_tracts (with_tracts b ts) ts' = with_tracts b ts'.
Proof. done. Qed.

(** What the loop of [resolve] leaves: every box of the items has its
    tracts resolved, and nothing else has changed. *)
Lemma resolve_loop_post bs items h h' :
  resolve_loop bs items None h = Ok h' →
  (∀ nm r, (nm, r) ∈ items →
     ∃ b ts, h !! r = Some b ∧ (∀ s, over b ≠ OStr s) ∧
       resolve_tracts bs (_next b) (tracts b) = Ok ts ∧
       h' !! r = Some (with_tracts b ts)) ∧
  (∀ r, (∀ nm, (nm, r) ∉ items) → h' !! r = h !! r).
Proof.
  revert h. induction items as [|[nm r] items IH]; intros h H; simpl in H.
  - injection H as <-. split; [|done].
    intros nm r Hin. by apply elem_of_nil in Hin.
  - apply bind_Ok in H as (b & Hb & H). apply deref_Ok in Hb.
    apply bind_Ok in H as ([ol h1] & Hover & H).
    assert (ol = None ∧ h1 = h ∧ ∀ s, over b ≠ OStr s) as (-> & -> & Hns).
    { destruct (over b); simpl in Hover; by simplify_eq. }
    apply bind_Ok in H as (b' & Hb' & H). apply deref_Ok in Hb'.
    simplify_eq. apply bind_Ok in H as (ts & Hts & H).
    destruct (IH _ H) as [Hin Hout].
    assert (h' !! r = Some (with_tracts b ts)) as Hr.
    { destruct (decide (r ∈ items.*2)) as [Hyes|Hno].
      - apply list_elem_of_fmap in Hyes as ([nm' r'] & Hr' & Hnm').
        simpl in Hr'. subst r'.
        destruct (Hin _ _ Hnm') as (b1 & ts1 & Hb1 & _ & Hts1 & ->).
        rewrite lookup_insert_eq in Hb1. injection Hb1 as <-.
        simpl in Hts1. rewrite (resolve_tracts_again _ _ _ _ _ Hts) in Hts1.
        by injection Hts1 as <-.
      - rewrite Hout; [by rewrite lookup_insert_eq|].
        intros nm' Hnm'. apply Hno. apply list_elem_of_fmap.
        by exists (nm', r). }
    split.
    + intros nm' r' [[= -> ->]|Hin']%elem_of_cons; [by exists b, ts|].
      destruct (decide (r' = r)) as [->|Hne]; [by exists b, ts|].
      destruct (Hin _ _ Hin') as (b1 & ts1 & Hb1 & Hns1 & Hts1 & Hr1).
      rewrite lookup_insert_ne in Hb1 by done. by exists b1, ts1.
    + intros r' Hno. rewrite Hout.
      * rewrite lookup_insert_ne; [done|]. intros ->.
        apply (Hno nm). apply list_elem_of_here.
      * intros nm' Hin'. apply (Hno nm'). by apply list_elem_of_further.
Qed.

Lemma resolve_tracts_lookup bs nxt ts ts' :
  resolve_tracts bs nxt ts = Ok ts' →
  ∀ i t, ts !! i = Some t →
         ∃ t', ts' !! i = Some t' ∧ resolve_tract bs nxt t = Ok t'.
Proof.
  revert ts'. induction ts as [|t0 ts IH]; intros ts' H i t Hi; [done|].
  simpl in H. apply bind_Ok in H as (t1 & Ht1 & H).
  apply bind_Ok in H as (ts1 & Hts1 & H). injection H as <-.
  destruct i as [|i]; simpl in *.
  - injection Hi as <-. eauto.
  - eauto.
Qed.

(** When [resolve] returns, the overs and unders of all boxes are as
    before (none was a name), every box of [boxes] has each of its tracts
    resolved in place, so that no dest is a name any more, and the boxes
    that are not in [boxes] are as they were. *)
Theorem resolve_resolves_dests self h h' :
  resolve self h = Ok h' →
  same_links h h' ∧
  (∀ nm r, (nm, r) ∈ boxes self →
     ∃ b b', h !! r = Some b ∧ h' !! r = Some b' ∧
       (∀ s, over b ≠ OStr s) ∧
       b' = with_tracts b (tracts b') ∧
       dests_resolved b' ∧
       length (tracts b') = length (tracts b) ∧
       ∀ i t, tracts b !! i = Some t →
         ∃ t', tracts b' !! i = Some t' ∧
               resolve_tract (boxes self) (_next b) t = Ok t') ∧
  (∀ r, (∀ nm, (nm, r) ∉ boxes self) → h' !! r = h !! r).
Proof.
  intros H. unfold resolve in H.
  pose proof (resolve_loop_Ok _ _ _ _ H) as [Hl _].
  apply resolve_loop_post in H as [Hin Hout].
  split; [done|]. split; [|done].
  intros nm r Hnm. destruct (Hin _ _ Hnm) as (b & ts & Hb & Hns & Hts & Hr).
  exists b, (with_tracts b ts). split; [done|]. split; [done|].
  split; [done|]. split; [done|].
  destruct (resolve_tracts_resolved _ _ _ _ Hts) as [Hlen Hres].
  split; [intros t Ht; by apply Hres|]. split; [done|].
  by apply resolve_tracts_lookup.
Qed.

Lemma resolve_resolves_dests_witness :
  let h' := match resolve Tracts.boxer Tracts.h with Ok h' => h' | _ => ∅ end in
  same_links Tracts.h h' ∧
  (∀ nm r, (nm, r) ∈ boxes Tracts.boxer →
     ∃ b b', Tracts.h !! r = Some b ∧ h' !! r = Some b' ∧
       (∀ s, over b ≠ OStr s) ∧
       b' = with_tracts b (tracts b') ∧
       dests_resolved b' ∧
       length (tracts b') = length (tracts b) ∧
       ∀ i t, tracts b !! i = Some t →
         ∃ t', tracts b' !! i = Some t' ∧
               resolve_tract (boxes Tracts.boxer) (_next b) t = Ok t') ∧
  (∀ r, (∀ nm, (nm, r) ∉ boxes Tracts.boxer) → h' !! r = Tracts.h !! r).
Proof.
  intros h'. apply (resolve_resolves_dests Tracts.boxer Tracts.h h').
  vm_compute. reflexivity.
Defined.

End ResolveMore.

